(** * Stencil: structural matching and rewriting of Go syntax trees

    A shallow embedding of the [matcher] and [executor] packages of
    vinodhalaharvi/stencil, together with the part of the [grammar]
    package (the rule AST) that they consume.

    Conventions of the embedding.
    - A Go [string] is a [string]; [map[string]any] is a [gmap string Value].
    - A (non-nil) pointer to a go/ast struct is a [Node]: its address, the
      name of its struct type and its fields in declaration order.  The
      dynamically typed values the matcher obtains by reflection are [Value]s.
    - A Go struct of the rule AST whose alternatives are nil-able pointers is
      a record of [option]s, in the order of the struct declaration.
    - Functions that write into a map they were handed return the map.
    - The executor mutates the tree through the pointers held in bindings;
      its state is passed explicitly (see [Executor]): the tree is the store,
      an assignment through a pointer rewrites the node of that address, and
      a bound node is read in its current state.  This is the Go heap as long
      as the bindings point into the executor's file ([NewFromMatcher]) and
      no pointer occurs twice in it, which holds of a parsed file.
    - Go libraries that are not part of the repository (go/ast's [Walk],
      go/parser, go/format, [fmt], the iteration order of a map) are
      parameters; [strings] and the executor's one regular expression are
      written out, for ASCII text.
    - A run that panics in Go (a nil dereference, an index out of range) has
      no counterpart here; no such run is reachable from a parsed rule and a
      parsed file. *)

From Stdlib Require Import ZArith Ascii String List Bool Lia.
From stdpp Require Import base option list gmap strings fin_maps fin_sets.

Set Default Proof Using "Type".
Set Warnings "-register-all".
Local Open Scope Z_scope.

(** ** The Go [strings] functions used by the two packages *)

Module strings.

Definition byte_in (lo hi : nat) (c : ascii) : bool :=
  (lo <=? nat_of_ascii c)%nat && (nat_of_ascii c <=? hi)%nat.

Definition is_upper : ascii -> bool := byte_in 65 90.
Definition is_lower : ascii -> bool := byte_in 97 122.
Definition is_digit : ascii -> bool := byte_in 48 57.

Definition upper_byte (c : ascii) : ascii :=
  if is_lower c then ascii_of_nat (nat_of_ascii c - 32) else c.
Definition lower_byte (c : ascii) : ascii :=
  if is_upper c then ascii_of_nat (nat_of_ascii c + 32) else c.

Fixpoint map_bytes (f : ascii -> ascii) (s : string) : string :=
  match s with
  | EmptyString => EmptyString
  | String c s' => String (f c) (map_bytes f s')
  end.

(** [strings.ToUpper] and [strings.ToLower], on ASCII text. *)
Definition ToUpper : string -> string := map_bytes upper_byte.
Definition ToLower : string -> string := map_bytes lower_byte.

Fixpoint TrimLeft (s : string) (c : ascii) : string :=
  match s with
  | String a s' => if Ascii.eqb a c then TrimLeft s' c else s
  | EmptyString => EmptyString
  end.

Fixpoint TrimRight (s : string) (c : ascii) : string :=
  match s with
  | EmptyString => EmptyString
  | String a s' =>
      match TrimRight s' c with
      | EmptyString => if Ascii.eqb a c then EmptyString else String a EmptyString
      | r => String a r
      end
  end.

(** [strings.Trim(s, cutset)] for a cutset of one byte. *)
Definition Trim (s : string) (c : ascii) : string := TrimRight (TrimLeft s c) c.

Fixpoint HasPrefix (s p : string) : bool :=
  match p, s with
  | EmptyString, _ => true
  | String b p', String a s' => Ascii.eqb a b && HasPrefix s' p'
  | String _ _, EmptyString => false
  end.

(** [strings.Contains(s, substr)]. *)
Fixpoint Contains (s sub : string) : bool :=
  HasPrefix s sub ||
  match s with
  | EmptyString => false
  | String _ s' => Contains s' sub
  end.

(** [strings.SplitN(s, sep, 2)] for a separator of one byte: the text
    before the first separator and the text after it, or the whole string
    when there is none. *)
Fixpoint SplitN2 (s : string) (sep : ascii) : list string :=
  match s with
  | EmptyString => [EmptyString]
  | String a s' =>
      if Ascii.eqb a sep then [EmptyString; s']
      else match SplitN2 s' sep with
           | h :: t => String a h :: t
           | [] => [String a EmptyString]
           end
  end.

(** [strings.Split(s, sep)] for a separator of one byte. *)
Fixpoint Split (s : string) (sep : ascii) : list string :=
  match s with
  | EmptyString => [EmptyString]
  | String a s' =>
      if Ascii.eqb a sep then EmptyString :: Split s' sep
      else match Split s' sep with
           | h :: t => String a h :: t
           | [] => [String a EmptyString]
           end
  end.

(** [strings.Join] with the empty separator. *)
Definition Join0 (parts : list string) : string :=
  fold_right String.append EmptyString parts.

End strings.

Definition quote : ascii := ascii_of_nat 34.
Definition backtick : ascii := "`"%char.
Definition newline : string := String (ascii_of_nat 10) EmptyString.

(** A string token of the rule language: the text between two quotes. *)
Definition quoted (s : string) : string := String quote (s +:+ String quote EmptyString).

(** ** The target tree: go/ast as seen through reflection *)

(** [VNil] is the nil interface (also what [getField] returns for a nil
    pointer field), [VNode] a pointer to an ast struct, [VSlice] a slice
    (the nil slice is the slice without elements: the Go parser never builds
    an empty slice that is not nil), [VString] a string and [VInt] every
    integer-like scalar ([token.Pos], [token.Token], ...). *)
Inductive Value : Type :=
| VNil
| VNode (n : Node)
| VSlice (items : list Value)
| VString (s : string)
| VInt (z : Z)
with Node : Type :=
| mkNode (addr : positive) (kind : string) (fields : list (string * Value)).

Definition addr (n : Node) : positive := let 'mkNode a _ _ := n in a.
Definition kind (n : Node) : string := let 'mkNode _ k _ := n in k.
Definition fields (n : Node) : list (string * Value) := let 'mkNode _ _ fs := n in fs.

(** [reflect.Value.FieldByName]: the first field of that name. *)
Fixpoint FieldByName (fs : list (string * Value)) (name : string) : option Value :=
  match fs with
  | [] => None
  | (k, v) :: fs' => if String.eqb k name then Some v else FieldByName fs' name
  end.

Definition field (n : Node) (name : string) : Value :=
  default VNil (FieldByName (fields n) name).

(** Assignment to a struct field through the pointer. *)
Fixpoint setField (fs : list (string * Value)) (name : string) (v : Value)
  : list (string * Value) :=
  match fs with
  | [] => [(name, v)]
  | (k, w) :: fs' =>
      if String.eqb k name then (k, v) :: fs' else (k, w) :: setField fs' name v
  end.

Definition withField (n : Node) (name : string) (v : Value) : Node :=
  mkNode (addr n) (kind n) (setField (fields n) name v).

Definition sliceOf (v : Value) : list Value :=
  match v with VSlice l => l | _ => [] end.

Definition stringOf (v : Value) : string :=
  match v with VString s => s | _ => EmptyString end.

(** A type assertion [v.( *ast.K )]. *)
Definition asKind (k : string) (v : Value) : option Node :=
  match v with
  | VNode n => if String.eqb (kind n) k then Some n else None
  | _ => None
  end.

(** The size of a tree, for induction on the nodes below a node. *)
Fixpoint nsize (n : Node) : nat :=
  match n with
  | mkNode _ _ fs =>
      S ((fix fsize (fs : list (string * Value)) : nat :=
            match fs with
            | [] => 0%nat
            | (_, v) :: fs' => (vsize v + fsize fs')%nat
            end) fs)
  end
with vsize (v : Value) : nat :=
  match v with
  | VNode n => nsize n
  | VSlice l =>
      S ((fix lsize (l : list Value) : nat :=
            match l with
            | [] => 0%nat
            | x :: l' => (vsize x + lsize l')%nat
            end) l)
  | _ => 0%nat
  end.

Definition fsize (fs : list (string * Value)) : nat :=
  fold_right (fun '(_, v) acc => vsize v + acc)%nat 0%nat fs.

Definition lsize (l : list Value) : nat :=
  fold_right (fun x acc => vsize x + acc)%nat 0%nat l.

(** Every node held by a field of [n], walked or not. *)
Definition subnodes (n : Node) : list Node :=
  flat_map (fun '(_, v) => match v with
                           | VNode c => [c]
                           | VSlice l => omap (fun x => match x with
                                                        | VNode c => Some c
                                                        | _ => None
                                                        end) l
                           | _ => []
                           end) (fields n).

(** ** The rule AST (package grammar) *)

Record SpreadBinding := { SpreadBinding_Name : string }.
Record SimpleBinding := { SimpleBinding_Name : string }.

Inductive MatchValue : Type :=
| mkMatchValue (Spread : option SpreadBinding) (Binding : option SimpleBinding)
    (Pattern : option ASTPattern) (List_ : option (list MatchValue))
    (Exact : option string) (Wild : bool)
with ASTPattern : Type :=
| mkASTPattern (NodeType : string) (Fields : list FieldMatch)
with FieldMatch : Type :=
| mkFieldMatch (Name : string) (Value_ : MatchValue).

Definition MatchValue_Spread (p : MatchValue) := let 'mkMatchValue s _ _ _ _ _ := p in s.
Definition MatchValue_Binding (p : MatchValue) := let 'mkMatchValue _ b _ _ _ _ := p in b.
Definition MatchValue_Pattern (p : MatchValue) := let 'mkMatchValue _ _ a _ _ _ := p in a.
Definition MatchValue_List (p : MatchValue) := let 'mkMatchValue _ _ _ l _ _ := p in l.
Definition MatchValue_Exact (p : MatchValue) := let 'mkMatchValue _ _ _ _ e _ := p in e.
Definition MatchValue_Wild (p : MatchValue) := let 'mkMatchValue _ _ _ _ _ w := p in w.
Definition ASTPattern_NodeType (p : ASTPattern) := let 'mkASTPattern t _ := p in t.
Definition ASTPattern_Fields (p : ASTPattern) := let 'mkASTPattern _ fs := p in fs.
Definition FieldMatch_Name (f : FieldMatch) := let 'mkFieldMatch n _ := f in n.
Definition FieldMatch_Value (f : FieldMatch) := let 'mkFieldMatch _ v := f in v.

(** The six alternatives of [MatchValue] as the parser builds them. *)
Definition mvSpread (x : string) : MatchValue :=
  mkMatchValue (Some {| SpreadBinding_Name := x |}) None None None None false.
Definition mvBinding (x : string) : MatchValue :=
  mkMatchValue None (Some {| SimpleBinding_Name := x |}) None None None false.
Definition mvPattern (p : ASTPattern) : MatchValue :=
  mkMatchValue None None (Some p) None None false.
Definition mvList (l : list MatchValue) : MatchValue :=
  mkMatchValue None None None (Some l) None false.
Definition mvExact (s : string) : MatchValue :=
  mkMatchValue None None None None (Some s) false.
Definition mvWild : MatchValue :=
  mkMatchValue None None None None None true.

Record MatchStmt := {
  MatchStmt_NodeType : string;
  MatchStmt_In : option string;
  MatchStmt_Fields : list FieldMatch }.

Record FromClause := { FromClause_Matchers : list MatchStmt }.

Record ContainsPred := {
  ContainsPred_Binding : string;
  ContainsPred_Pattern : ASTPattern }.

Record LenPred := {
  LenPred_Binding : string;
  LenPred_Op : string;
  LenPred_Value : Z }.

Record MemberPred := {
  MemberPred_Binding : string;
  MemberPred_Values : list string }.

Record PropertyPred := {
  PropertyPred_Binding : string;
  PropertyPred_Property : string }.

Inductive Predicate : Type :=
| mkPredicate (Not : option Predicate) (Contains : option ContainsPred)
    (LenCheck : option LenPred) (MemberCheck : option MemberPred)
    (PropCheck : option PropertyPred).

Record WhereClause := { WhereClause_Predicates : list Predicate }.

Record BindingRef := {
  BindingRef_Name : string;
  BindingRef_Field : option string;
  BindingRef_Transforms : list string }.

Record Expr := {
  Expr_Binding : option BindingRef;
  Expr_String : option string;
  Expr_Number : option Z }.

Record FieldPath := {
  FieldPath_Binding : string;
  FieldPath_Segments : list string }.

Record SetStmt := { SetStmt_Path : FieldPath; SetStmt_Value : Expr }.
Record RenameStmt := { RenameStmt_Binding : string; RenameStmt_NewName : string }.
Record RetypeStmt := { RetypeStmt_Binding : string; RetypeStmt_NewType : string }.

Inductive PatchStmt : Type :=
| mkPatchStmt (If : option ConditionalPatch) (Set_ : option SetStmt)
    (Rename : option RenameStmt) (Retype : option RetypeStmt)
with ConditionalPatch : Type :=
| mkConditionalPatch (Condition : Predicate) (Stmts : list PatchStmt).

Definition PatchStmt_If (s : PatchStmt) := let 'mkPatchStmt i _ _ _ := s in i.
Definition PatchStmt_Set (s : PatchStmt) := let 'mkPatchStmt _ x _ _ := s in x.
Definition PatchStmt_Rename (s : PatchStmt) := let 'mkPatchStmt _ _ r _ := s in r.
Definition PatchStmt_Retype (s : PatchStmt) := let 'mkPatchStmt _ _ _ t := s in t.
Definition ConditionalPatch_Condition (c : ConditionalPatch) :=
  let 'mkConditionalPatch p _ := c in p.
Definition ConditionalPatch_Stmts (c : ConditionalPatch) :=
  let 'mkConditionalPatch _ l := c in l.

Record PatchClause := { PatchClause_Stmts : list PatchStmt }.

Record DeleteStmt := { DeleteStmt_Path : FieldPath }.
Record DeleteClause := { DeleteClause_Stmts : list DeleteStmt }.

(** AST construction for [insert ast] and [emit ... ast]; the executor only
    tests these for presence. *)
Inductive ASTBuild : Type :=
| mkASTBuild (NodeType : string) (Fields : list (string * ASTBuildValue))
with ASTBuildValue : Type :=
| mkASTBuildValue (ForLoop : option (string * BindingRef * ASTBuild))
    (Binding : option BindingRef) (Construct : option ASTBuild)
    (List_ : option (list ASTBuildValue)) (String_ : option string)
    (Number : option Z).

Record InsertPos := { InsertPos_Kind : string; InsertPos_Binding : option string }.
Record CodeBlock := { CodeBlock_Text : string }.

Record InsertClause := {
  InsertClause_Mode : string;
  InsertClause_Position : InsertPos;
  InsertClause_ASTNode : option ASTBuild;
  InsertClause_Code : option CodeBlock }.

Record ASTEmitBlock := { ASTEmitBlock_Body : ASTBuild }.
Record CodeEmitBlock := { CodeEmitBlock_Text : string }.
Record TplEmitBlock := { TplEmitBlock_Text : string }.

Record EmitClause := {
  EmitClause_Target : string;
  EmitClause_File : string;
  EmitClause_Package : option string;
  EmitClause_ASTBody : option ASTEmitBlock;
  EmitClause_CodeBody : option CodeEmitBlock;
  EmitClause_Template : option TplEmitBlock }.

Record Action := {
  Action_Patch : option PatchClause;
  Action_Delete : option DeleteClause;
  Action_Insert : option InsertClause;
  Action_Emit : option EmitClause }.

Record LiftBlock := {
  LiftBlock_Name : string;
  LiftBlock_From : option FromClause;
  LiftBlock_Where : list WhereClause;
  LiftBlock_Actions : list Action }.

(** ** Package matcher *)

(** [Bindings] holds captured values: keys are binding names (without [$]). *)
Abbreviation Bindings := (gmap string Value).

(** [for k, v := range src { dst[k] = v }] *)
Definition rangeAssign (src dst : Bindings) : Bindings :=
  map_fold (fun k v acc => <[k := v]> acc) dst src.

(** [Copy] creates a shallow copy of the bindings. *)
Definition Copy (b : Bindings) : Bindings := rangeAssign b ∅.

(** [Match] represents a successful pattern match with its captured bindings. *)
Record Match := { Match_Node : Node; Match_Bindings : Bindings }.

(** [nodeTypeMatches] checks if a node's type matches the expected type name. *)
Definition nodeTypeMatches (n : Node) (typeName : string) : bool :=
  String.eqb (kind n) typeName.

Definition fieldMap : list (string * string) :=
  [ ("name", "Name"); ("type", "Type"); ("recv", "Recv"); ("body", "Body");
    ("params", "Params"); ("results", "Results"); ("fields", "Fields");
    ("list", "List"); ("fun", "Fun"); ("args", "Args"); ("x", "X");
    ("sel", "Sel"); ("tok", "Tok"); ("specs", "Specs"); ("decls", "Decls");
    ("names", "Names"); ("tag", "Tag"); ("value", "Value");
    ("values", "Values"); ("elts", "Elts"); ("elt", "Elt"); ("key", "Key");
    ("len", "Len"); ("lhs", "Lhs"); ("rhs", "Rhs"); ("cond", "Cond");
    ("init", "Init"); ("post", "Post"); ("op", "Op") ]%string.

Fixpoint assoc (l : list (string * string)) (k : string) : option string :=
  match l with
  | [] => None
  | (a, b) :: l' => if String.eqb a k then Some b else assoc l' k
  end.

(** [mapFieldName] maps .lift field names to Go AST struct field names. *)
Definition mapFieldName (name : string) : string :=
  match assoc fieldMap name with
  | Some mapped => mapped
  | None =>
      match name with
      | String c rest => String (strings.upper_byte c) rest
      | EmptyString => name
      end
  end.

(** [getField] retrieves a field from an AST node by name; a field that does
    not exist and a nil pointer both read as nil. *)
Definition getField (n : Node) (name : string) : Value :=
  field n (mapFieldName name).

Definition isNil (v : Value) : bool :=
  match v with VNil => true | _ => false end.

(** [matchExact] checks if a value matches an exact string. *)
Definition matchExact (value : Value) (expected : string) : bool :=
  match value with
  | VNode n =>
      if String.eqb (kind n) "Ident"
      then match field n "Name" with
           | VString name => String.eqb name expected
           | _ => false
           end
      else false
  | VString v => String.eqb v expected
  | _ => false
  end.

(** [toNode] converts various types to [ast.Node]. *)
Definition toNode (v : Value) : option Node :=
  match v with
  | VNode n => Some n
  | _ => None
  end.

(** [toSlice] converts various AST slice types to [[]any]; [None] is the
    nil result. *)
Definition toSlice (v : Value) : option (list Value) :=
  match v with
  | VNil => None
  | VNode n =>
      if String.eqb (kind n) "FieldList"
      then match field n "List" with
           | VSlice (x :: l) => Some (x :: l)
           | _ => None
           end
      else None
  | VSlice l => Some l
  | _ => None
  end.

(** [matchValue], [matchASTPattern] and [matchField], by recursion on the
    pattern; [matchList] and [matchFields] are the two inner loops.  Each
    returns the verdict and the bindings map as it left it. *)
Fixpoint matchValue (value : Value) (pattern : MatchValue) (bindings : Bindings)
  {struct pattern} : bool * Bindings :=
  match pattern with
  | mkMatchValue spread binding pat lst exact wild =>
      if wild then (true, bindings) else
      match binding with
      | Some b => (true, <[SimpleBinding_Name b := value]> bindings)
      | None =>
      match spread with
      | Some s => (true, <[SpreadBinding_Name s := value]> bindings)
      | None =>
      match exact with
      | Some e => (matchExact value (strings.Trim e quote), bindings)
      | None =>
      match pat with
      | Some p => matchASTPattern value p bindings
      | None =>
      match lst with
      | Some patterns =>
          match toSlice value with
          | None => (false, bindings)
          | Some items =>
              if negb (length patterns =? length items)%nat then (false, bindings)
              else
                (fix loop (ps : list MatchValue) (items : list Value)
                     (bindings : Bindings) {struct ps} : bool * Bindings :=
                   match ps, items with
                   | p :: ps', item :: items' =>
                       let '(ok, bindings') := matchValue item p bindings in
                       if ok then loop ps' items' bindings' else (false, bindings')
                   | _, _ => (true, bindings)
                   end) patterns items bindings
          end
      | None => (false, bindings)
      end end end end end
  end
with matchASTPattern (value : Value) (pattern : ASTPattern) (bindings : Bindings)
  {struct pattern} : bool * Bindings :=
  match pattern with
  | mkASTPattern nodeType flds =>
      match toNode value with
      | None => (false, bindings)
      | Some node =>
          if negb (nodeTypeMatches node nodeType) then (false, bindings)
          else
            (fix loop (fs : list FieldMatch) (bindings : Bindings)
                 {struct fs} : bool * Bindings :=
               match fs with
               | [] => (true, bindings)
               | f :: fs' =>
                   let '(ok, bindings') := matchField node f bindings in
                   if ok then loop fs' bindings' else (false, bindings')
               end) flds bindings
      end
  end
with matchField (n : Node) (field : FieldMatch) (bindings : Bindings)
  {struct field} : bool * Bindings :=
  match field with
  | mkFieldMatch name value =>
      let fieldValue := getField n name in
      if isNil fieldValue && negb (MatchValue_Wild value) then
        if bool_decide (is_Some (MatchValue_Binding value))
           || bool_decide (is_Some (MatchValue_Spread value))
        then
          match MatchValue_Binding value with
          | Some b => (true, <[SimpleBinding_Name b := VNil]> bindings)
          | None => (true, bindings)
          end
        else (false, bindings)
      else matchValue fieldValue value bindings
  end.

(** [matchFields] attempts to match all field constraints against a node. *)
Fixpoint matchFields (n : Node) (fs : list FieldMatch) (bindings : Bindings)
  : bool * Bindings :=
  match fs with
  | [] => (true, bindings)
  | f :: fs' =>
      let '(ok, bindings') := matchField n f bindings in
      if ok then matchFields n fs' bindings' else (false, bindings')
  end.

(** The positional loop of [matchList]. *)
Fixpoint matchItems (ps : list MatchValue) (items : list Value) (bindings : Bindings)
  : bool * Bindings :=
  match ps, items with
  | p :: ps', item :: items' =>
      let '(ok, bindings') := matchValue item p bindings in
      if ok then matchItems ps' items' bindings' else (false, bindings')
  | _, _ => (true, bindings)
  end.

(** [matchList] matches a list value against a list pattern. *)
Definition matchList (value : Value) (patterns : list MatchValue) (bindings : Bindings)
  : bool * Bindings :=
  match toSlice value with
  | None => (false, bindings)
  | Some items =>
      if negb (length patterns =? length items)%nat then (false, bindings)
      else matchItems patterns items bindings
  end.

(** *** Traversal: [ast.Inspect]

    go/ast is not part of the repository.  [ast.Walk] visits, for a node of
    each struct type, a fixed selection of its fields in declaration order;
    the selection is the parameter [walks] (struct type, field name).  A
    selected field that holds a node is walked, one that holds a slice has
    its nodes walked in order.  [Inspect f n] calls [f] on [n]; when that
    returns true it walks the children and then calls [f] on nil.  The
    closure's captured variables are the state [S]. *)

Section Traversal.

Variable walks : string -> string -> bool.

Fixpoint Inspect {S : Type} (f : option Node -> S -> bool * S) (n : Node) (s : S)
  {struct n} : S :=
  match n with
  | mkNode a k fs =>
      let '(descend, s1) := f (Some n) s in
      if descend then
        let s2 :=
          (fix walkFields (fs : list (string * Value)) (s : S) {struct fs} : S :=
             match fs with
             | [] => s
             | (name, v) :: fs' =>
                 let s' :=
                   if walks k name then
                     match v with
                     | VNode c => Inspect f c s
                     | VSlice l =>
                         (fix walkList (l : list Value) (s : S) {struct l} : S :=
                            match l with
                            | [] => s
                            | VNode c :: l' => walkList l' (Inspect f c s)
                            | _ :: l' => walkList l' s
                            end) l s
                     | _ => s
                     end
                   else s in
                 walkFields fs' s'
             end) fs s1 in
        snd (f None s2)
      else s1
  end.

(** The nodes [ast.Walk] descends into from [n], in order. *)
Definition nodesOf (v : Value) : list Node :=
  match v with
  | VNode c => [c]
  | VSlice l => omap toNode l
  | _ => []
  end.

Definition children (n : Node) : list Node :=
  flat_map (fun '(name, v) => if walks (kind n) name then nodesOf v else [])
           (fields n).

(** [within n n']: [n] is a node of the subtree rooted at [n']. *)
Inductive within : Node -> Node -> Prop :=
| within_refl n : within n n
| within_child n c n' : c ∈ children n' -> within n c -> within n n'.

(** The callback of [matchStmt]; its state is the slice [matches]. *)
Definition matchStmt_visit (stmt : MatchStmt) (inherited : option Bindings)
    (on : option Node) (matches : list Match) : bool * list Match :=
  match on with
  | None => (false, matches)
  | Some n =>
      if negb (nodeTypeMatches n (MatchStmt_NodeType stmt)) then (true, matches)
      else
        let bindings : Bindings :=
          match inherited with
          | Some inh => rangeAssign inh ∅
          | None => ∅
          end in
        let '(ok, bindings') := matchFields n (MatchStmt_Fields stmt) bindings in
        (true,
         if ok then matches ++ [ {| Match_Node := n; Match_Bindings := bindings' |} ]
         else matches)
  end.

(** [matchStmt] finds all nodes matching a [MatchStmt], optionally within
    a scope; [inherited] is [None] for the nil map. *)
Definition matchStmt (stmt : MatchStmt) (scope : Node) (inherited : option Bindings)
  : list Match :=
  Inspect (matchStmt_visit stmt inherited) scope [].

(** [crossJoin] combines matches from two matchers, merging their bindings. *)
Definition crossJoin (a b : list Match) : list Match :=
  if (length a =? 0)%nat then b
  else if (length b =? 0)%nat then a
  else
    fold_left
      (fun result ma =>
         fold_left
           (fun result mb =>
              let merged := rangeAssign (Match_Bindings mb) (Copy (Match_Bindings ma)) in
              result ++ [ {| Match_Node := Match_Node ma; Match_Bindings := merged |} ])
           b result)
      a [].

(** The Cartesian product of two match sets, [a]-major: the node of the left
    match, the bindings of the left overwritten by those of the right. *)
Definition product (a b : list Match) : list Match :=
  flat_map
    (fun ma =>
       map (fun mb => {| Match_Node := Match_Node ma;
                         Match_Bindings := Match_Bindings mb ∪ Match_Bindings ma |}) b)
    a.

(** One iteration of the loop of [MatchBlock] over the matchers after the
    first. *)
Definition MatchBlock_step (file : Node) (matches : list Match) (stmt : MatchStmt)
  : list Match :=
  match MatchStmt_In stmt with
  | None =>
      let newMatches := matchStmt stmt file None in
      crossJoin matches newMatches
  | Some bindingName =>
      fold_left
        (fun newMatches m =>
           match Match_Bindings m !! bindingName with
           | Some scope =>
               match toNode scope with
               | Some scopeNode =>
                   let subMatches := matchStmt stmt scopeNode (Some (Match_Bindings m)) in
                   newMatches ++ subMatches
               | None => newMatches
               end
           | None => newMatches
           end)
        matches []
  end.

(** [MatchBlock] executes all matchers in a lift block's from clause; the
    matcher's file is [file].  (Its error result is always nil.) *)
Definition MatchBlock (file : Node) (block : LiftBlock) : list Match :=
  match LiftBlock_From block with
  | None => []
  | Some fc =>
      match FromClause_Matchers fc with
      | [] => []
      | firstMatcher :: rest =>
          fold_left (MatchBlock_step file) rest (matchStmt firstMatcher file None)
      end
  end.

(** *** Predicate evaluation *)

(** The callback of [evalContains]; its state is the variable [found]. *)
Definition evalContains_visit (pred : ContainsPred)
    (on : option Node) (found : bool) : bool * bool :=
  match on with
  | None => (false, found)
  | Some n =>
      if found then (false, found)
      else if nodeTypeMatches n (ASTPattern_NodeType (ContainsPred_Pattern pred))
      then
        let subBindings : Bindings := ∅ in
        if fst (matchFields n (ASTPattern_Fields (ContainsPred_Pattern pred)) subBindings)
        then (false, true)
        else (true, found)
      else (true, found)
  end.

(** The test [evalContains] applies to each node it visits. *)
Definition containsHit (pred : ContainsPred) (n : Node) : bool :=
  nodeTypeMatches n (ASTPattern_NodeType (ContainsPred_Pattern pred))
  && fst (matchFields n (ASTPattern_Fields (ContainsPred_Pattern pred)) ∅).

(** [evalContains] checks if a binding contains a pattern. *)
Definition evalContains (pred : ContainsPred) (bindings : Bindings) : bool :=
  match bindings !! ContainsPred_Binding pred with
  | None => false
  | Some scope =>
      match toNode scope with
      | None => false
      | Some scopeNode => Inspect (evalContains_visit pred) scopeNode false
      end
  end.

(** [getLength] returns the length of a value (slice, FieldList, etc.) *)
Definition getLength (v : Value) : Z :=
  match v with
  | VNil => 0
  | VNode n =>
      if String.eqb (kind n) "FieldList"
      then Z.of_nat (length (sliceOf (field n "List")))
      else 0
  | VSlice l => Z.of_nat (length l)
  | _ => 0
  end.

(** [evalLenCheck] evaluates a length predicate. *)
Definition evalLenCheck (pred : LenPred) (bindings : Bindings) : bool :=
  match bindings !! LenPred_Binding pred with
  | None => false
  | Some val =>
      let length := getLength val in
      let op := LenPred_Op pred in
      if String.eqb op ">" then LenPred_Value pred <? length
      else if String.eqb op ">=" then LenPred_Value pred <=? length
      else if String.eqb op "<" then length <? LenPred_Value pred
      else if String.eqb op "<=" then length <=? LenPred_Value pred
      else if String.eqb op "==" then length =? LenPred_Value pred
      else if String.eqb op "!=" then negb (length =? LenPred_Value pred)
      else false
  end.

(** [evalMemberCheck] checks if a binding's value is in a set. *)
Definition evalMemberCheck (pred : MemberPred) (bindings : Bindings) : bool :=
  match bindings !! MemberPred_Binding pred with
  | None => false
  | Some val =>
      let check (strVal : string) :=
        existsb (fun member => String.eqb (strings.Trim member quote) strVal)
                (MemberPred_Values pred) in
      match val with
      | VNode n =>
          if String.eqb (kind n) "Ident" then check (stringOf (field n "Name"))
          else false
      | VString v => check v
      | _ => false
      end
  end.

Definition firstByteUpper (s : string) : bool :=
  match s with
  | String c _ => strings.is_upper c
  | EmptyString => false
  end.

(** [isExported] checks if a value represents an exported identifier. *)
Definition isExported (v : Value) : bool :=
  match v with
  | VNode n =>
      if String.eqb (kind n) "Ident" then firstByteUpper (stringOf (field n "Name"))
      else false
  | VString val => firstByteUpper val
  | _ => false
  end.

(** [evalPropCheck] evaluates a property predicate. *)
Definition evalPropCheck (pred : PropertyPred) (bindings : Bindings) : bool :=
  match bindings !! PropertyPred_Binding pred with
  | None => false
  | Some val =>
      let property := PropertyPred_Property pred in
      if String.eqb property "exported" then isExported val
      else if String.eqb property "pointer" then bool_decide (is_Some (asKind "StarExpr" val))
      else if String.eqb property "slice" then bool_decide (is_Some (asKind "ArrayType" val))
      else if String.eqb property "map" then bool_decide (is_Some (asKind "MapType" val))
      else if String.eqb property "error" then
        match asKind "Ident" val with
        | Some ident => String.eqb (stringOf (field ident "Name")) "error"
        | None => false
        end
      else false
  end.

(** [EvalPredicate] evaluates a predicate against bindings. *)
Fixpoint EvalPredicate (pred : Predicate) (bindings : Bindings) : bool :=
  match pred with
  | mkPredicate not contains lenCheck memberCheck propCheck =>
      match not with
      | Some p => negb (EvalPredicate p bindings)
      | None =>
      match contains with
      | Some c => evalContains c bindings
      | None =>
      match lenCheck with
      | Some l => evalLenCheck l bindings
      | None =>
      match memberCheck with
      | Some m => evalMemberCheck m bindings
      | None =>
      match propCheck with
      | Some q => evalPropCheck q bindings
      | None => false
      end end end end end
  end.

(** [FilterMatches] filters matches using where clause predicates. *)
Definition FilterMatches (matches : list Match) (whereClauses : list WhereClause)
  : list Match :=
  if (length whereClauses =? 0)%nat then matches
  else
    filter
      (fun m =>
         forallb
           (fun w => forallb (fun pred => EvalPredicate pred (Match_Bindings m))
                             (WhereClause_Predicates w))
           whereClauses = true)
      matches.

End Traversal.

(** ** Package executor *)

(** *** The regular expression of [interpolate]

    Go's [regexp] is not part of the repository.  The one expression the
    executor compiles is
<<
    \$\{(\w+)(?:\s*\|\s*(\w+))?\}
>>
    and [regexp.matchHere] is its leftmost-first match anchored at the start
    of the text: [\w] is [[0-9A-Za-z_]] and [\s] is [[\t\n\f\r ]]; both
    repetitions are greedy, and since the text that must follow a run is
    never of the run's class, the greedy run is the only candidate. *)

Module regexp.

Definition isWord (c : ascii) : bool :=
  strings.is_digit c || strings.is_upper c || strings.is_lower c
  || Ascii.eqb c "_"%char.

Definition isSpace (c : ascii) : bool :=
  let n := nat_of_ascii c in
  (n =? 9)%nat || (n =? 10)%nat || (n =? 12)%nat || (n =? 13)%nat || (n =? 32)%nat.

(** The longest prefix of bytes of a class, and the rest. *)
Fixpoint span (p : ascii -> bool) (s : string) : string * string :=
  match s with
  | String c s' =>
      if p c then let '(a, b) := span p s' in (String c a, b)
      else (EmptyString, s)
  | EmptyString => (EmptyString, EmptyString)
  end.

Fixpoint allb (p : ascii -> bool) (s : string) : bool :=
  match s with
  | EmptyString => true
  | String c s' => p c && allb p s'
  end.

(** The text is empty or starts with a byte outside the class. *)
Definition headFails (p : ascii -> bool) (s : string) : Prop :=
  match s with
  | EmptyString => True
  | String c _ => p c = false
  end.

(** A match: the matched text, the two groups (the second is empty when
    the optional part did not take part) and the text after the match. *)
Record submatch := {
  full : string;
  group1 : string;
  group2 : string;
  rest : string }.

Definition closing (name : string) (after : string) : option submatch :=
  match after with
  | String "}" r =>
      Some {| full := "${" +:+ name +:+ "}"; group1 := name;
              group2 := EmptyString; rest := r |}
  | _ => None
  end.

Definition matchHere (s : string) : option submatch :=
  match s with
  | String "$" (String "{" s1) =>
      let '(name, s2) := span isWord s1 in
      match name with
      | EmptyString => None
      | String _ _ =>
          let '(ws1, s3) := span isSpace s2 in
          match s3 with
          | String "|" s4 =>
              let '(ws2, s5) := span isSpace s4 in
              let '(transform, s6) := span isWord s5 in
              match transform, s6 with
              | String _ _, String "}" r =>
                  Some {| full := "${" +:+ name +:+ ws1 +:+ "|" +:+ ws2
                                    +:+ transform +:+ "}";
                          group1 := name; group2 := transform; rest := r |}
              | _, _ => closing name s2
              end
          | _ => closing name s2
          end
      end
  | _ => None
  end.

(** The match as found in a text that ends with it. *)
Definition anchored (m : submatch) : submatch :=
  {| full := full m; group1 := group1 m; group2 := group2 m; rest := EmptyString |}.

(** The match [m] as found in a text that goes on with [d]. *)
Definition followedBy (d : string) (m : submatch) : submatch :=
  {| full := full m; group1 := group1 m; group2 := group2 m; rest := rest m +:+ d |}.

(** The loop of [ReplaceAllStringFunc]: [skip] counts the bytes of the
    current match that are still to be passed over. *)
Fixpoint replaceFrom (repl : string -> string) (s : string) (skip : nat) : string :=
  match s with
  | EmptyString => EmptyString
  | String c s' =>
      match skip with
      | S k => replaceFrom repl s' k
      | O =>
          match matchHere s with
          | Some m => repl (full m) +:+ replaceFrom repl s' (String.length (full m) - 1)
          | None => String c (replaceFrom repl s' 0)
          end
      end
  end.

(** [re.ReplaceAllStringFunc(text, repl)]: every match, from left to right
    and without overlap, is replaced by [repl] of the matched text. *)
Definition ReplaceAllStringFunc (text : string) (repl : string -> string) : string :=
  replaceFrom repl text 0.

(** [re.FindStringSubmatch(s)]: the leftmost match and its groups. *)
Fixpoint FindStringSubmatch (s : string) : option (list string) :=
  match matchHere s with
  | Some m => Some [full m; group1 m; group2 m]
  | None =>
      match s with
      | String _ s' => FindStringSubmatch s'
      | EmptyString => None
      end
  end.

End regexp.

(** *** The Go libraries around the executor

    None of go/ast, go/parser, go/format and fmt is part of the repository;
    what the executor uses of them is collected here.
    - [walks] is the field selection of [ast.Walk] (see [Inspect]);
    - [fmt_v] is [fmt.Sprintf("%v", v)];
    - [parser_ParseFile next src] parses [src] into a file node whose nodes
      are allocated from address [next] on, and returns the first address
      left free; [None] is a syntax error;
    - [format_Node] is [format.Node] on the file, [None] its error;
    - [range_imports] is the order in which [range] visits the keys of the
      import map. *)
Record golang := {
  walks : string -> string -> bool;
  fmt_v : Value -> string;
  parser_ParseFile : positive -> string -> option (Node * positive);
  format_Node : Node -> option string;
  range_imports : gset string -> list string }.

Definition token_STRING : Z := 9.
Definition token_IMPORT : Z := 75.

(** [Result] holds the output of executing actions. *)
Record Result := {
  Result_ModifiedSource : string;
  Result_EmittedFiles : gmap string string;
  Result_Applied : list string }.

(** [Executor] applies lift block actions to Go source.  [Executor_file] is
    the tree behind the pointer [e.file]; [Executor_next] is the next free
    address of the allocator.  The tree is the store: the object behind a
    pointer is the node of that address in the tree ([lookupNode]), and an
    assignment through a pointer rewrites that node ([updateNode]). *)
Record Executor := {
  Executor_file : Node;
  Executor_imports : gset string;
  Executor_next : positive }.

Fixpoint lookupNode (a : positive) (n : Node) {struct n} : option Node :=
  match n with
  | mkNode a' _ fs =>
      if Pos.eqb a' a then Some n
      else
        (fix inFields (fs : list (string * Value)) : option Node :=
           match fs with
           | [] => None
           | (_, v) :: fs' =>
               let here :=
                 match v with
                 | VNode c => lookupNode a c
                 | VSlice l =>
                     (fix inList (l : list Value) : option Node :=
                        match l with
                        | [] => None
                        | VNode c :: l' =>
                            match lookupNode a c with
                            | Some r => Some r
                            | None => inList l'
                            end
                        | _ :: l' => inList l'
                        end) l
                 | _ => None
                 end in
               match here with
               | Some r => Some r
               | None => inFields fs'
               end
           end) fs
  end.

Fixpoint updateNode (a : positive) (f : Node -> Node) (n : Node) {struct n} : Node :=
  match n with
  | mkNode a' k fs =>
      let fs' :=
        (fix inFields (fs : list (string * Value)) : list (string * Value) :=
           match fs with
           | [] => []
           | (name, v) :: r =>
               (name,
                match v with
                | VNode c => VNode (updateNode a f c)
                | VSlice l =>
                    VSlice
                      ((fix inList (l : list Value) : list Value :=
                          match l with
                          | [] => []
                          | VNode c :: l' => VNode (updateNode a f c) :: inList l'
                          | x :: l' => x :: inList l'
                          end) l)
                | _ => v
                end) :: inFields r
           end) fs in
      if Pos.eqb a' a then f (mkNode a' k fs') else mkNode a' k fs'
  end.

(** A bound value as the executor reads it: the node behind a bound pointer
    is its current state in the tree (the bindings were taken before the
    executor's mutations); a bound slice keeps its elements. *)
Definition derefNode (root : Node) (v : Value) : Value :=
  match v with
  | VNode n => VNode (default n (lookupNode (addr n) root))
  | _ => v
  end.

Definition deref (root : Node) (v : Value) : Value :=
  match v with
  | VSlice l => VSlice (map (derefNode root) l)
  | _ => derefNode root v
  end.

Definition view (e : Executor) (bindings : Bindings) : Bindings :=
  deref (Executor_file e) <$> bindings.

(** Errors: [fmt.Errorf] with a message, and [fmt.Errorf("...: %w", err)]. *)
Inductive error : Type :=
| Errorf (msg : string)
| Wrapf (msg : string) (cause : error).

Inductive outcome (A : Type) : Type :=
| Ok (a : A)
| Err (err : error).
Arguments Ok {A} a.
Arguments Err {A} err.

(** A method of the executor: it reads and writes the executor's state and
    returns a value or an error. *)
Definition exec (A : Type) : Type := Executor -> Executor * outcome A.

#[global] Instance exec_ret : MRet exec := fun A a e => (e, Ok a).
#[global] Instance exec_bind : MBind exec := fun A B k c e =>
  match c e with
  | (e', Ok a) => k a e'
  | (e', Err err) => (e', Err err)
  end.

Definition fail {A : Type} (err : error) : exec A := fun e => (e, Err err).
Definition get : exec Executor := fun e => (e, Ok e).
Definition modify (f : Executor -> Executor) : exec unit := fun e => (f e, Ok tt).

(** [fmt.Errorf(msg + ": %w", err)] around a call. *)
Definition wrap {A : Type} (msg : string) (c : exec A) : exec A := fun e =>
  match c e with
  | (e', Ok a) => (e', Ok a)
  | (e', Err err) => (e', Err (Wrapf msg err))
  end.

Fixpoint foldM {A B : Type} (f : B -> A -> exec B) (l : list A) (b : B) : exec B :=
  match l with
  | [] => mret b
  | x :: l' => b' ← f b x; foldM f l' b'
  end.

Fixpoint forM_ {A : Type} (f : A -> exec unit) (l : list A) : exec unit :=
  match l with
  | [] => mret tt
  | x :: l' => f x;; forM_ f l'
  end.

(** [new(T)]: the next free address. *)
Definition alloc : exec positive := fun e =>
  ({| Executor_file := Executor_file e;
      Executor_imports := Executor_imports e;
      Executor_next := Pos.succ (Executor_next e) |}, Ok (Executor_next e)).

(** [e.imports[pkg] = true] *)
Definition addImport (pkg : string) : exec unit :=
  modify (fun e => {| Executor_file := Executor_file e;
                      Executor_imports := {[ pkg ]} ∪ Executor_imports e;
                      Executor_next := Executor_next e |}).

(** An assignment through the pointer [a]. *)
Definition assign (a : positive) (f : Node -> Node) : exec unit :=
  modify (fun e => {| Executor_file := updateNode a f (Executor_file e);
                      Executor_imports := Executor_imports e;
                      Executor_next := Executor_next e |}).

Section ExecutorMethods.

Variable go : golang.

(** [bindingToString] converts a binding value to string. *)
Definition bindingToString (v : Value) : string :=
  match v with
  | VString val => val
  | VNode n =>
      if String.eqb (kind n) "Ident" then stringOf (field n "Name")
      else if String.eqb (kind n) "BasicLit" then stringOf (field n "Value")
      else fmt_v go v
  | _ => fmt_v go v
  end.

(** [toSnakeCase] converts PascalCase to snake_case (ASCII text). *)
Fixpoint snakeFrom (s : string) (i : nat) : string :=
  match s with
  | EmptyString => EmptyString
  | String r s' =>
      let tail := String r (snakeFrom s' (S i)) in
      if (0 <? i)%nat && strings.is_upper r then String "_" tail else tail
  end.

Definition toSnakeCase (s : string) : string := strings.ToLower (snakeFrom s 0).

Definition upperFirst (s : string) : string :=
  match s with
  | String c s' => String (strings.upper_byte c) s'
  | EmptyString => EmptyString
  end.

(** [toCamelCase] converts snake_case to camelCase. *)
Definition toCamelCase (s : string) : string :=
  match strings.Split s "_" with
  | [] => EmptyString
  | p :: parts => strings.Join0 (p :: map upperFirst parts)
  end.

(** [applyTransform] applies a named transform to a string. *)
Definition applyTransform (s : string) (transform : string) : string :=
  if String.eqb transform "snake_case" then toSnakeCase s
  else if String.eqb transform "lower" then strings.ToLower s
  else if String.eqb transform "upper" then strings.ToUpper s
  else if String.eqb transform "camel_case" then toCamelCase s
  else s.

(** The replacement function of [interpolate].  [match_] is a match of the
    pattern, so [FindStringSubmatch] finds it again with its groups; the
    last branch stands for the index panic of a nil result and is never
    taken ([regexp_facts.FindStringSubmatch_full]). *)
Definition interpolate_repl (bindings : Bindings) (match_ : string) : string :=
  match regexp.FindStringSubmatch match_ with
  | Some [_; name; transform] =>
      match bindings !! name with
      | None => match_
      | Some val =>
          let str := bindingToString val in
          if negb (String.eqb transform EmptyString) then applyTransform str transform
          else str
      end
  | _ => match_
  end.

(** [interpolate] replaces [${Var}] and [${Var | transform}] in text. *)
Definition interpolate (text : string) (bindings : Bindings) : string :=
  regexp.ReplaceAllStringFunc text (interpolate_repl bindings).

Definition firstFuncDecl (decls : list Value) : option Node :=
  list_find (fun v => is_Some (asKind "FuncDecl" v)) decls ≫= fun '(_, v) => toNode v.

(** [parseStatements] parses a string as Go statements. *)
Definition parseStatements (code : string) : exec (list Value) := fun e =>
  let wrapped := "package p" +:+ newline +:+ "func f() {" +:+ newline
                 +:+ code +:+ newline +:+ "}" in
  match parser_ParseFile go (Executor_next e) wrapped with
  | None => (e, Err (Errorf "syntax error"))
  | Some (f, next') =>
      let e' := {| Executor_file := Executor_file e;
                   Executor_imports := Executor_imports e;
                   Executor_next := next' |} in
      match firstFuncDecl (sliceOf (field f "Decls")) with
      | Some fd =>
          (e', Ok (sliceOf (match field fd "Body" with
                            | VNode body => field body "List"
                            | _ => VNil
                            end)))
      | None => (e', Err (Errorf "no statements found"))
      end
  end.

(** [executeInsert] handles insert actions (prepend/append code to blocks). *)
Definition executeInsert (ins : InsertClause) (bindings : Bindings) : exec unit :=
  if negb (String.eqb (InsertClause_Mode ins) "code") then
    fail (Errorf ("insert mode " +:+ quoted (InsertClause_Mode ins) +:+ " not yet supported"))
  else
  match InsertClause_Code ins with
  | None => fail (Errorf "insert code requires code block")
  | Some code =>
  match InsertPos_Binding (InsertClause_Position ins) with
  | None => fail (Errorf "insert requires target binding")
  | Some targetName =>
  match bindings !! targetName with
  | None => fail (Errorf ("binding $" +:+ targetName +:+ " not found"))
  | Some target =>
  match asKind "BlockStmt" target with
  | None => fail (Errorf ("$" +:+ targetName +:+ " is not a BlockStmt"))
  | Some blockStmt =>
      e ← get;
      let codeText := strings.Trim (CodeBlock_Text code) backtick in
      let codeText := interpolate codeText (view e bindings) in
      (if strings.Contains codeText "context." then addImport "context" else mret tt);;
      (if strings.Contains codeText "time." then addImport "time" else mret tt);;
      stmts ← wrap "parse insert code" (parseStatements codeText);
      let kind := InsertPos_Kind (InsertClause_Position ins) in
      if String.eqb kind "prepend" then
        assign (addr blockStmt)
               (fun cur => withField cur "List" (VSlice (stmts ++ sliceOf (field cur "List"))))
      else if String.eqb kind "append" then
        assign (addr blockStmt)
               (fun cur => withField cur "List" (VSlice (sliceOf (field cur "List") ++ stmts)))
      else
        fail (Errorf ("insert position " +:+ quoted kind +:+ " not yet supported"))
  end end end end.

Definition newIdent (a : positive) (name : string) : Node :=
  mkNode a "Ident" [("NamePos", VInt 0); ("Name", VString name); ("Obj", VNil)].

(** [parseTypeExpr] parses a type expression string. *)
Definition parseTypeExpr (typeStr : string) : exec Node :=
  if strings.Contains typeStr "." then
    match strings.SplitN2 typeStr "." with
    | [p0; p1] =>
        x ← alloc; sel ← alloc; a ← alloc;
        mret (mkNode a "SelectorExpr"
                [("X", VNode (newIdent x p0)); ("Sel", VNode (newIdent sel p1))])
    | _ => a ← alloc; mret (newIdent a typeStr)
    end
  else a ← alloc; mret (newIdent a typeStr).

Definition pathText (segments : list string) : string :=
  "[" +:+ String.concat " " segments +:+ "]".

(** [executeSet]: the one supported path is [$X.first]. *)
Definition executeSet (set : SetStmt) (bindings : Bindings) : exec unit :=
  let path := SetStmt_Path set in
  match bindings !! FieldPath_Binding path with
  | None => fail (Errorf ("binding $" +:+ FieldPath_Binding path +:+ " not found"))
  | Some target =>
      if bool_decide (FieldPath_Segments path = ["first"%string]) then
        match asKind "FieldList" target with
        | None => fail (Errorf ("$" +:+ FieldPath_Binding path +:+ " is not a FieldList"))
        | Some fl =>
        match Expr_String (SetStmt_Value set) with
        | None => fail (Errorf "set value must be a string")
        | Some str =>
            let fieldSpec := strings.Trim str quote in
            match strings.SplitN2 fieldSpec " " with
            | [p0; p1] =>
                n ← alloc;
                ty ← parseTypeExpr p1;
                f ← alloc;
                let newField :=
                  mkNode f "Field"
                    [("Doc", VNil); ("Names", VSlice [VNode (newIdent n p0)]);
                     ("Type", VNode ty); ("Tag", VNil); ("Comment", VNil)] in
                assign (addr fl)
                       (fun cur => withField cur "List"
                                     (VSlice (VNode newField :: sliceOf (field cur "List"))));;
                (if strings.Contains p1 "context." then addImport "context" else mret tt)
            | _ => fail (Errorf ("invalid field spec: " +:+ fieldSpec))
            end
        end end
      else
        fail (Errorf ("set path " +:+ FieldPath_Binding path +:+ "."
                      +:+ pathText (FieldPath_Segments path) +:+ " not yet supported"))
  end.

Definition executePatchStmt (stmt : PatchStmt) (bindings : Bindings) : exec unit :=
  match PatchStmt_Rename stmt with
  | Some rename =>
      match bindings !! RenameStmt_Binding rename with
      | None => fail (Errorf ("binding $" +:+ RenameStmt_Binding rename +:+ " not found"))
      | Some target =>
          match asKind "Ident" target with
          | None => fail (Errorf ("$" +:+ RenameStmt_Binding rename +:+ " is not an identifier"))
          | Some ident =>
              let newName := strings.Trim (RenameStmt_NewName rename) quote in
              assign (addr ident) (fun cur => withField cur "Name" (VString newName))
          end
      end
  | None =>
  match PatchStmt_Set stmt with
  | Some set => executeSet set bindings
  | None =>
  match PatchStmt_Retype stmt with
  | Some _ => fail (Errorf "retype not yet implemented")
  | None => mret tt
  end end end.

(** [executePatch] handles patch actions (rename, retype, set). *)
Definition executePatch (patch : PatchClause) (bindings : Bindings) : exec unit :=
  forM_
    (fun stmt =>
       match PatchStmt_If stmt with
       | Some cond =>
           e ← get;
           if EvalPredicate (walks go) (ConditionalPatch_Condition cond) (view e bindings)
           then forM_ (fun nested => executePatchStmt nested bindings)
                      (ConditionalPatch_Stmts cond)
           else mret tt
       | None => executePatchStmt stmt bindings
       end)
    (PatchClause_Stmts patch).

(** [executeDelete] handles delete actions. *)
Definition executeDelete (del : DeleteClause) (bindings : Bindings) : exec unit :=
  forM_ (fun _ => mret tt) (DeleteClause_Stmts del);;
  fail (Errorf "delete not yet implemented").

(** [executeEmit] handles emit actions (generate new files). *)
Definition executeEmit (emit : EmitClause) (bindings : Bindings) : exec string :=
  match EmitClause_Template emit with
  | Some tpl =>
      e ← get;
      let content := strings.Trim (TplEmitBlock_Text tpl) backtick in
      mret (interpolate content (view e bindings))
  | None =>
  match EmitClause_CodeBody emit with
  | Some body =>
      e ← get;
      let content := strings.Trim (CodeEmitBlock_Text body) backtick in
      let content := interpolate content (view e bindings) in
      match EmitClause_Package emit with
      | Some pkg => mret ("package " +:+ pkg +:+ newline +:+ newline +:+ content)
      | None => mret content
      end
  | None =>
  match EmitClause_ASTBody emit with
  | Some _ => fail (Errorf "emit ast mode not yet implemented")
  | None => mret EmptyString
  end end end.

Definition isImportDecl (gd : Node) : bool :=
  String.eqb (kind gd) "GenDecl"
  && match field gd "Tok" with
     | VInt t => t =? token_IMPORT
     | _ => false
     end.

(** The first loop of [addImports]: the index in [Decls] and the node of the
    first [GenDecl] whose [Tok] is [token.IMPORT]. *)
Fixpoint findImportDecl (decls : list Value) : option (nat * Node) :=
  match decls with
  | [] => None
  | decl :: rest =>
      match decl with
      | VNode gd =>
          if isImportDecl gd then Some (0%nat, gd)
          else prod_map S id <$> findImportDecl rest
      | _ => prod_map S id <$> findImportDecl rest
      end
  end.

(** The paths of the import specs of a declaration, quotes trimmed. *)
Definition existingImports (specs : list Value) : list string :=
  omap (fun spec =>
          match asKind "ImportSpec" spec with
          | Some is_ =>
              match field is_ "Path" with
              | VNode lit => Some (strings.Trim (stringOf (field lit "Value")) quote)
              | _ => None
              end
          | None => None
          end) specs.

Definition newImportSpec (a b : positive) (imp : string) : Node :=
  mkNode a "ImportSpec"
    [("Doc", VNil); ("Name", VNil);
     ("Path", VNode (mkNode b "BasicLit"
                       [("ValuePos", VInt 0); ("Kind", VInt token_STRING);
                        ("Value", VString (quoted imp))]));
     ("Comment", VNil); ("EndPos", VInt 0)].

(** The body of the loop of [addImports] over the import map: the specs
    and the allocator as it goes. *)
Definition addMissing (existing : list string) (acc : list Value * positive) (imp : string)
  : list Value * positive :=
  let '(specs, next) := acc in
  if bool_decide (imp ∈ existing) then (specs, next)
  else (specs ++ [VNode (newImportSpec next (Pos.succ next) imp)],
        Pos.succ (Pos.succ next)).

Definition forceParens (gd : Node) : Node :=
  withField (withField gd "Lparen" (VInt 1)) "Rparen" (VInt 1).

Definition newImportDecl (a : positive) : Node :=
  mkNode a "GenDecl"
    [("Doc", VNil); ("TokPos", VInt 0); ("Tok", VInt token_IMPORT);
     ("Lparen", VInt 1); ("Specs", VSlice []); ("Rparen", VInt 1)].

(** [addImports] from the point where [importDecl] is known: it is the
    declaration at index [i] of [decls]. *)
Definition addImports_into (e : Executor) (i : nat) (importDecl : Node)
    (decls : list Value) (next : positive) : Executor :=
  let specs := sliceOf (field importDecl "Specs") in
  let existing := existingImports specs in
  let '(specs, next) :=
    fold_left (addMissing existing) (range_imports go (Executor_imports e))
              (specs, next) in
  let importDecl := withField importDecl "Specs" (VSlice specs) in
  let importDecl :=
    if (1 <? length specs)%nat then forceParens importDecl else importDecl in
  {| Executor_file :=
       withField (Executor_file e) "Decls" (VSlice (<[i := VNode importDecl]> decls));
     Executor_imports := Executor_imports e;
     Executor_next := next |}.

(** [addImports] adds any required imports to the file. *)
Definition addImports (e : Executor) : Executor :=
  if (size (Executor_imports e) =? 0)%nat then e
  else
    let decls := sliceOf (field (Executor_file e) "Decls") in
    match findImportDecl decls with
    | Some (i, importDecl) => addImports_into e i importDecl decls (Executor_next e)
    | None =>
        let importDecl := newImportDecl (Executor_next e) in
        addImports_into e 0 importDecl (VNode importDecl :: decls)
                        (Pos.succ (Executor_next e))
    end.

(** The import paths of a file: those of the specs of its first import
    declaration. *)
Definition importPaths (file : Node) : list string :=
  match findImportDecl (sliceOf (field file "Decls")) with
  | Some (_, importDecl) => existingImports (sliceOf (field importDecl "Specs"))
  | None => []
  end.

(** [&Result{EmittedFiles: make(map[string]string)}] *)
Definition newResult : Result :=
  {| Result_ModifiedSource := EmptyString;
     Result_EmittedFiles := ∅;
     Result_Applied := [] |}.

Definition applied (result : Result) (what : string) : Result :=
  {| Result_ModifiedSource := Result_ModifiedSource result;
     Result_EmittedFiles := Result_EmittedFiles result;
     Result_Applied := Result_Applied result ++ [what] |}.

(** The body of the two loops of [Execute]: one action on one match. *)
Definition Execute_apply (action : Action) (result : Result) (m : Match) : exec Result :=
  result ←
    match Action_Insert action with
    | Some ins =>
        wrap "insert failed" (executeInsert ins (Match_Bindings m));;
        mret (applied result "insert")
    | None => mret result
    end;
  result ←
    match Action_Patch action with
    | Some patch =>
        wrap "patch failed" (executePatch patch (Match_Bindings m));;
        mret (applied result "patch")
    | None => mret result
    end;
  result ←
    match Action_Delete action with
    | Some del =>
        wrap "delete failed" (executeDelete del (Match_Bindings m));;
        mret (applied result "delete")
    | None => mret result
    end;
  match Action_Emit action with
  | Some emit =>
      content ← wrap "emit failed" (executeEmit emit (Match_Bindings m));
      let filename := strings.Trim (EmitClause_File emit) quote in
      mret (applied
              {| Result_ModifiedSource := Result_ModifiedSource result;
                 Result_EmittedFiles := <[filename := content]> (Result_EmittedFiles result);
                 Result_Applied := Result_Applied result |}
              ("emit:" +:+ filename))
  | None => mret result
  end.

Definition Execute_loops (actions : list Action) (matches : list Match) (result : Result)
  : exec Result :=
  foldM (fun result action => foldM (Execute_apply action) matches result) actions result.

(** [Execute] applies all actions in a lift block using the provided
    matches.  An error result carries no [Result]. *)
Definition Execute (block : LiftBlock) (matches : list Match) : exec Result :=
  let result := newResult in
  result ← Execute_loops (LiftBlock_Actions block) matches result;
  modify addImports;;
  e ← get;
  match format_Node go (Executor_file e) with
  | None => fail (Wrapf "format error" (Errorf "format.Node"))
  | Some src =>
      mret {| Result_ModifiedSource := src;
              Result_EmittedFiles := Result_EmittedFiles result;
              Result_Applied := Result_Applied result |}
  end.

End ExecutorMethods.

(** *** Notions used to state the properties of the executor *)

(** The applications of [Execute], in the order of its two loops: each
    action on each match. *)
Definition applications (actions : list Action) (matches : list Match)
  : list (Action * Match) :=
  flat_map (fun action => map (pair action) matches) actions.

Definition Execute_step (go : golang) (result : Result) (am : Action * Match)
  : exec Result :=
  Execute_apply go am.1 result am.2.

(** An action that is an emit clause. *)
Definition emitOnly (emit : EmitClause) : Action :=
  {| Action_Patch := None; Action_Delete := None; Action_Insert := None;
     Action_Emit := Some emit |}.

(** What one successful emit does to the result. *)
Definition emitted (emit : EmitClause) (content : string) (result : Result) : Result :=
  {| Result_ModifiedSource := Result_ModifiedSource result;
     Result_EmittedFiles :=
       <[strings.Trim (EmitClause_File emit) quote := content]> (Result_EmittedFiles result);
     Result_Applied :=
       Result_Applied result
       ++ ["emit:" +:+ strings.Trim (EmitClause_File emit) quote] |}.

Definition setNext (e : Executor) (next : positive) : Executor :=
  {| Executor_file := Executor_file e;
     Executor_imports := Executor_imports e;
     Executor_next := next |}.

(** The import declaration with its specs replaced, parenthesized when
    there is more than one. *)
Definition withSpecs (gd : Node) (specs : list Value) : Node :=
  let gd := withField gd "Specs" (VSlice specs) in
  if (1 <? length specs)%nat then forceParens gd else gd.

Definition headByte (s : string) : option ascii :=
  match s with
  | String c _ => Some c
  | EmptyString => None
  end.

Fixpoint lastByte (s : string) : option ascii :=
  match s with
  | EmptyString => None
  | String c EmptyString => Some c
  | String _ s' => lastByte s'
  end.

(** A package name that neither starts nor ends with a quote. *)
Definition plainName (imp : string) : Prop :=
  headByte imp <> Some quote /\ lastByte imp <> Some quote.

(** A package name that reads back from the import spec made for it. *)
Definition readsBack (imp : string) : Prop := strings.Trim (quoted imp) quote = imp.

(** *** A small target file, for evaluating the matcher and the executor

<<
    package m
    func Hello(n string) string { return n }
    func Goodbye() {}
>>
    The tree is the one go/parser builds, abridged: positions are 0 and the
    fields that hold no syntax (scopes, objects, comments) are left out.
    Addresses number the nodes. *)

Module Sample.

(** The traversal table that selects every field. *)
Definition walksAll (_ _ : string) : bool := true.

Definition ident (a : positive) (name : string) : Node :=
  mkNode a "Ident" [("NamePos", VInt 0); ("Name", VString name); ("Obj", VNil)].

Definition hello_params : Node :=
  mkNode 5 "FieldList"
    [("Opening", VInt 0);
     ("List", VSlice [VNode (mkNode 6 "Field"
                               [("Doc", VNil);
                                ("Names", VSlice [VNode (ident 7 "n")]);
                                ("Type", VNode (ident 8 "string"));
                                ("Tag", VNil); ("Comment", VNil)])]);
     ("Closing", VInt 0)].

Definition hello_results : Node :=
  mkNode 9 "FieldList"
    [("Opening", VInt 0);
     ("List", VSlice [VNode (mkNode 10 "Field"
                               [("Doc", VNil); ("Names", VSlice []);
                                ("Type", VNode (ident 11 "string"));
                                ("Tag", VNil); ("Comment", VNil)])]);
     ("Closing", VInt 0)].

Definition hello_body : Node :=
  mkNode 12 "BlockStmt"
    [("Lbrace", VInt 0);
     ("List", VSlice [VNode (mkNode 13 "ReturnStmt"
                               [("Return", VInt 0);
                                ("Results", VSlice [VNode (ident 14 "n")])])]);
     ("Rbrace", VInt 0)].

Definition hello_type : Node :=
  mkNode 4 "FuncType"
    [("Func", VInt 0); ("TypeParams", VNil);
     ("Params", VNode hello_params); ("Results", VNode hello_results)].

Definition hello : Node :=
  mkNode 2 "FuncDecl"
    [("Doc", VNil); ("Recv", VNil); ("Name", VNode (ident 3 "Hello"));
     ("Type", VNode hello_type); ("Body", VNode hello_body)].

Definition goodbye_params : Node :=
  mkNode 18 "FieldList" [("Opening", VInt 0); ("List", VSlice []); ("Closing", VInt 0)].

Definition goodbye_type : Node :=
  mkNode 17 "FuncType"
    [("Func", VInt 0); ("TypeParams", VNil);
     ("Params", VNode goodbye_params); ("Results", VNil)].

Definition goodbye : Node :=
  mkNode 15 "FuncDecl"
    [("Doc", VNil); ("Recv", VNil); ("Name", VNode (ident 16 "Goodbye"));
     ("Type", VNode goodbye_type);
     ("Body", VNode (mkNode 19 "BlockStmt"
                       [("Lbrace", VInt 0); ("List", VSlice []);
                        ("Rbrace", VInt 0)]))].

Definition file_m : Node :=
  mkNode 1 "File"
    [("Doc", VNil); ("Package", VInt 0); ("Name", VNode (ident 20 "m"));
     ("Decls", VSlice [VNode hello; VNode goodbye])].

Definition fm (name : string) (v : MatchValue) : FieldMatch := mkFieldMatch name v.

Definition blockOf (ms : list MatchStmt) (acts : list Action) : LiftBlock :=
  {| LiftBlock_Name := quoted "test";
     LiftBlock_From := Some {| FromClause_Matchers := ms |};
     LiftBlock_Where := [];
     LiftBlock_Actions := acts |}.

(** [match FuncDecl { name: $N }] *)
Definition matchFuncName : MatchStmt :=
  {| MatchStmt_NodeType := "FuncDecl"; MatchStmt_In := None;
     MatchStmt_Fields := [fm "name" (mvBinding "N")] |}.

(** [match GenDecl { }]: the sample file has no such declaration. *)
Definition matchGenDecl : MatchStmt :=
  {| MatchStmt_NodeType := "GenDecl"; MatchStmt_In := None;
     MatchStmt_Fields := [] |}.

(** [match FuncType { params: $P... results: $R... }] *)
Definition matchFuncType : MatchStmt :=
  {| MatchStmt_NodeType := "FuncType"; MatchStmt_In := None;
     MatchStmt_Fields := [fm "params" (mvSpread "P"); fm "results" (mvSpread "R")] |}.

(** [match FuncDecl { name: $X body: $X }] *)
Definition matchSameName : MatchStmt :=
  {| MatchStmt_NodeType := "FuncDecl"; MatchStmt_In := None;
     MatchStmt_Fields := [fm "name" (mvBinding "X"); fm "body" (mvBinding "X")] |}.

(** The matches of [matchFuncName] and of [matchFuncType] in the sample
    file. *)
Definition m_hello : Match :=
  {| Match_Node := hello;
     Match_Bindings := {[ "N"%string := VNode (ident 3 "Hello") ]} |}.

Definition m_goodbye : Match :=
  {| Match_Node := goodbye;
     Match_Bindings := {[ "N"%string := VNode (ident 16 "Goodbye") ]} |}.

Definition nameMatches : list Match := [m_hello; m_goodbye].

Definition typeMatches : list Match :=
  [ {| Match_Node := hello_type;
       Match_Bindings := {[ "P"%string := VNode hello_params;
                            "R"%string := VNode hello_results ]} |};
    {| Match_Node := goodbye_type;
       Match_Bindings := {[ "P"%string := VNode goodbye_params ]} |} ].

Definition declName (v : Value) : string :=
  match v with
  | VNode d => match field d "Name" with
               | VNode id => stringOf (field id "Name")
               | _ => EmptyString
               end
  | _ => EmptyString
  end.

(** Stand-ins for the Go libraries: every field is walked, no text
    parses, a file is rendered as the names of its declarations, and the
    import map is visited in the order of [elements]. *)
Definition go0 : golang :=
  {| walks := walksAll;
     fmt_v := fun _ => "<value>";
     parser_ParseFile := fun _ _ => None;
     format_Node := fun f => Some (String.concat " " (map declName (sliceOf (field f "Decls"))));
     range_imports := elements |}.

(** The executor of [NewFromMatcher] on the sample file. *)
Definition executor0 : Executor :=
  {| Executor_file := file_m; Executor_imports := ∅; Executor_next := 100 |}.

Definition patchOf (stmts : list SetStmt) : Action :=
  {| Action_Patch :=
       Some {| PatchClause_Stmts :=
                 map (fun s => mkPatchStmt None (Some s) None None) stmts |};
     Action_Delete := None; Action_Insert := None; Action_Emit := None |}.

(** [set $x.first = "spec"] *)
Definition setStmt (x spec : string) : SetStmt :=
  {| SetStmt_Path := {| FieldPath_Binding := x; FieldPath_Segments := ["first"%string] |};
     SetStmt_Value := {| Expr_Binding := None; Expr_String := Some (quoted spec);
                         Expr_Number := None |} |}.

(** [patch { rename $N "Renamed" }] *)
Definition renameN : Action :=
  {| Action_Patch :=
       Some {| PatchClause_Stmts :=
                 [mkPatchStmt None None
                    (Some {| RenameStmt_Binding := "N";
                             RenameStmt_NewName := quoted "Renamed" |}) None] |};
     Action_Delete := None; Action_Insert := None; Action_Emit := None |}.

(** [delete { remove $N }] *)
Definition deleteN : Action :=
  {| Action_Patch := None;
     Action_Delete :=
       Some {| DeleteClause_Stmts :=
                 [ {| DeleteStmt_Path := {| FieldPath_Binding := "N";
                                            FieldPath_Segments := [] |} |} ] |};
     Action_Insert := None; Action_Emit := None |}.

(** [emit proto { file "f" template { `tpl` } }] *)
Definition emitTpl (file tpl : string) : EmitClause :=
  {| EmitClause_Target := "proto"; EmitClause_File := quoted file;
     EmitClause_Package := None; EmitClause_ASTBody := None;
     EmitClause_CodeBody := None;
     EmitClause_Template :=
       Some {| TplEmitBlock_Text :=
                 String backtick (tpl +:+ String backtick EmptyString) |} |}.

End Sample.


(** ** Properties of the matcher *)

Section MapLoops.

Lemma rangeAssign_union (src dst : Bindings) : rangeAssign src dst = src ∪ dst.
Proof.
  unfold rangeAssign.
  apply (map_fold_weak_ind (fun r (m : Bindings) => r = m ∪ dst)).
  - by rewrite (left_id_L ∅ (∪)).
  - intros i x m r _ ->. by rewrite insert_union_l.
Qed.

Lemma Copy_id (b : Bindings) : Copy b = b.
Proof. unfold Copy. by rewrite rangeAssign_union, (right_id_L ∅ (∪)). Qed.

End MapLoops.

Lemma nsize_eq a k fs : nsize (mkNode a k fs) = S (fsize fs).
Proof.
  simpl. f_equal. induction fs as [|[name v] fs IH]; simpl; [done|]. by rewrite IH.
Qed.

Lemma vsize_slice l : vsize (VSlice l) = S (lsize l).
Proof. reflexivity. Qed.

Lemma subnodes_smaller n c : c ∈ subnodes n -> (nsize c < nsize n)%nat.
Proof.
  destruct n as [a k fs]. rewrite nsize_eq. unfold subnodes; simpl.
  induction fs as [|[name v] fs IH]; simpl.
  - intros H. by apply elem_of_nil in H.
  - rewrite elem_of_app. intros [H|H]; [|apply IH in H; lia].
    destruct v as [|c'|l| |]; try (by apply elem_of_nil in H).
    + apply list_elem_of_singleton in H as ->. simpl. lia.
    + rewrite vsize_slice.
      assert (nsize c <= lsize l)%nat; [|lia].
      clear IH. induction l as [|x l IHl]; simpl in *.
      * by apply elem_of_nil in H.
      * destruct x as [|c'|l'| |]; simpl in *;
          try (specialize (IHl H); lia).
        apply elem_of_cons in H as [->|H]; [lia|]. specialize (IHl H). lia.
Qed.

Lemma Node_subnodes_ind (P : Node -> Prop) :
  (forall n, (forall c, c ∈ subnodes n -> P c) -> P n) -> forall n, P n.
Proof.
  intros H n. remember (nsize n) as m eqn:Hm.
  revert n Hm. induction m as [m IH] using lt_wf_ind. intros n ->.
  apply H. intros c Hc. eapply IH; [|reflexivity]. by apply subnodes_smaller.
Qed.

Section TraversalFacts.

Variable walks : string -> string -> bool.

Lemma children_subnodes n c : c ∈ children walks n -> c ∈ subnodes n.
Proof.
  unfold children, subnodes. rewrite !list_elem_of_In, !in_flat_map.
  intros [[name v] [Hin Hc]]. exists (name, v). split; [done|].
  destruct (walks (kind n) name); [|by destruct Hc].
  by destruct v.
Qed.

(** Induction over the nodes [ast.Walk] reaches. *)
Lemma Node_children_ind (P : Node -> Prop) :
  (forall n, (forall c, c ∈ children walks n -> P c) -> P n) -> forall n, P n.
Proof.
  intros H. apply Node_subnodes_ind. intros n IH. apply H.
  intros c Hc. by apply IH, children_subnodes.
Qed.

(** [Inspect] unfolded once: the callback on the node, then the children
    from left to right, then the callback on nil. *)
Lemma Inspect_eq {S : Type} (f : option Node -> S -> bool * S) n s :
  Inspect walks f n s =
    let '(descend, s1) := f (Some n) s in
    if descend
    then snd (f None (fold_left (fun s c => Inspect walks f c s) (children walks n) s1))
    else s1.
Proof.
  destruct n as [a k fs]. simpl. destruct (f _ s) as [[] s1]; [|done].
  do 2 f_equal. unfold children; simpl. clear s. revert s1.
  induction fs as [|[name v] fs IH]; intros s; simpl; [done|].
  rewrite fold_left_app, <- IH. f_equal.
  destruct (walks k name); [|done].
  destruct v as [|c|l| |]; simpl; try done.
  revert s. induction l as [|x l IHl]; intros s; simpl; [done|].
  destruct x; simpl; by rewrite IHl.
Qed.

Lemma within_trans n1 n2 n3 :
  within walks n1 n2 -> within walks n2 n3 -> within walks n1 n3.
Proof.
  intros H12 H23. induction H23 as [|n2 c n3 Hc _ IH]; [done|].
  eapply within_child; [done|]. by apply IH.
Qed.

End TraversalFacts.

(** Scenario 1 of the specification: two matches, [$N] bound to [Hello]
    then [Goodbye]. *)
Example scenario_1 :
  map (fun m => Match_Bindings m !! "N")
      (MatchBlock Sample.walksAll Sample.file_m (Sample.blockOf [Sample.matchFuncName] []))
  = [Some (VNode (Sample.ident 3 "Hello")); Some (VNode (Sample.ident 16 "Goodbye"))].
Proof. vm_compute. reflexivity. Qed.

Example nameMatches_eq :
  MatchBlock Sample.walksAll Sample.file_m (Sample.blockOf [Sample.matchFuncName] [])
  = Sample.nameMatches.
Proof. vm_compute. reflexivity. Qed.

Example typeMatches_eq :
  MatchBlock Sample.walksAll Sample.file_m (Sample.blockOf [Sample.matchFuncType] [])
  = Sample.typeMatches.
Proof. vm_compute. reflexivity. Qed.

(** *** Cross-join *)

Lemma fold_left_snoc {A B : Type} (g : A -> B) (l : list A) (acc : list B) :
  fold_left (fun r x => r ++ [g x]) l acc = acc ++ map g l.
Proof.
  revert acc. induction l as [|x l IH]; intros acc; simpl.
  - by rewrite app_nil_r.
  - by rewrite IH, <- app_assoc.
Qed.

Lemma fold_left_flat {A B : Type} (g : list B -> A -> list B) (h : A -> list B)
    (l : list A) (acc : list B) :
  (forall r x, g r x = r ++ h x) ->
  fold_left g l acc = acc ++ flat_map h l.
Proof.
  intros Hg. revert acc. induction l as [|x l IH]; intros acc; simpl.
  - by rewrite app_nil_r.
  - by rewrite IH, Hg, <- app_assoc.
Qed.

Lemma crossJoin_nil_l b : crossJoin [] b = b.
Proof. reflexivity. Qed.

Lemma crossJoin_nil_r a : crossJoin a [] = a.
Proof. by destruct a. Qed.

Lemma crossJoin_product a b : a <> [] -> b <> [] -> crossJoin a b = product a b.
Proof.
  intros Ha Hb. unfold crossJoin, product.
  destruct a as [|ma a]; [done|]. destruct b as [|mb b]; [done|].
  change (length (ma :: a) =? 0)%nat with false.
  change (length (mb :: b) =? 0)%nat with false. cbv iota.
  rewrite (fold_left_flat _
    (fun ma => map (fun mb' => {| Match_Node := Match_Node ma;
                                  Match_Bindings := Match_Bindings mb' ∪ Match_Bindings ma |})
                   (mb :: b))); [done|].
  intros r x. rewrite fold_left_snoc. f_equal.
  apply map_ext. intros m. by rewrite rangeAssign_union, Copy_id.
Qed.

(** C1 (as the code has it).  In [MatchBlock], processing a matcher after the
    first that has no [in] clause replaces the accumulated match set [A] by
    [crossJoin A B], where [B] is the matcher's match set over the whole
    file.  When [A] and [B] are both non-empty this is the Cartesian product
    [A x B], each result carrying the node of the left match and the
    bindings of [A] merged with those of [B], [B] winning on a name
    collision.  When [A] is empty the result is [B], and when [B] is empty
    the result is [A]. *)
Theorem MatchBlock_step_cross_join
    (walks : string -> string -> bool) (file : Node) (stmt : MatchStmt) (A : list Match) :
  MatchStmt_In stmt = None ->
  let B := matchStmt walks stmt file None in
  let R := MatchBlock_step walks file A stmt in
  (A <> [] -> B <> [] -> R = product A B) /\
  (A = [] -> R = B) /\
  (B = [] -> R = A) /\
  (forall m, m ∈ product A B ->
     exists ma mb, ma ∈ A /\ mb ∈ B /\ Match_Node m = Match_Node ma /\
       forall x, Match_Bindings m !! x =
                 match Match_Bindings mb !! x with
                 | Some v => Some v
                 | None => Match_Bindings ma !! x
                 end).
Proof.
  intros Hin B R. subst R. unfold MatchBlock_step. rewrite Hin. fold B.
  repeat split.
  - apply crossJoin_product.
  - intros ->. apply crossJoin_nil_l.
  - intros ->. apply crossJoin_nil_r.
  - intros m Hm. unfold product in Hm.
    apply list_elem_of_In, in_flat_map in Hm as [ma [Hma Hm]].
    apply in_map_iff in Hm as [mb [<- Hmb]].
    exists ma, mb. rewrite !list_elem_of_In. repeat split; try done.
    intros x. simpl. rewrite lookup_union. by destruct (_ !! x), (_ !! x).
Qed.

Lemma MatchBlock_step_cross_join_witness :
  let A := matchStmt Sample.walksAll Sample.matchFuncName Sample.file_m None in
  let B := matchStmt Sample.walksAll Sample.matchFuncType Sample.file_m None in
  length A = 2%nat /\ length B = 2%nat /\
  MatchBlock_step Sample.walksAll Sample.file_m A Sample.matchFuncType = product A B.
Proof.
  intros A B. split; [reflexivity|]. split; [reflexivity|].
  apply (MatchBlock_step_cross_join Sample.walksAll Sample.file_m Sample.matchFuncType A);
    [reflexivity| |]; by vm_compute.
Defined.

(** C1 fails as stated: with an empty accumulated set [A] (the first matcher
    finds no [GenDecl]) and a non-empty [B], [MatchBlock] returns [B], not
    the empty product; symmetrically an empty [B] leaves [A]. *)
Lemma MatchBlock_cross_join_empty_counterexample :
  matchStmt Sample.walksAll Sample.matchGenDecl Sample.file_m None = [] /\
  product [] (matchStmt Sample.walksAll Sample.matchFuncName Sample.file_m None) = [] /\
  length (MatchBlock Sample.walksAll Sample.file_m
            (Sample.blockOf [Sample.matchGenDecl; Sample.matchFuncName] [])) = 2%nat /\
  length (MatchBlock Sample.walksAll Sample.file_m
            (Sample.blockOf [Sample.matchFuncName; Sample.matchGenDecl] [])) = 2%nat.
Proof. repeat split; vm_compute; reflexivity. Qed.

(** *** Field unification *)

(** C3 (as the code has it).  A SimpleBinding [$X] always unifies: whatever
    the field value and whether or not [X] is already bound, unification
    succeeds and [X] is bound to the new value, replacing an earlier one.  No
    equality with the existing value is required. *)
Theorem matchValue_binding_rebinds
    (n : Node) (name : string) (value : Value) (b : SimpleBinding)
    (spread : option SpreadBinding) (pat : option ASTPattern)
    (lst : option (list MatchValue)) (exact : option string) (bindings : Bindings) :
  matchValue value (mkMatchValue spread (Some b) pat lst exact false) bindings
    = (true, <[SimpleBinding_Name b := value]> bindings) /\
  matchField n (mkFieldMatch name (mkMatchValue spread (Some b) pat lst exact false)) bindings
    = (true, <[SimpleBinding_Name b := getField n name]> bindings).
Proof.
  split; [reflexivity|]. simpl.
  by destruct (getField n name).
Qed.

(** C3 fails as stated: [$X] unifies with ["b"] although [X] is bound to
    ["a"], and [match FuncDecl { name: $X body: $X }] matches both functions
    of the sample file, leaving [X] bound to the body. *)
Lemma matchValue_binding_equality_counterexample :
  matchValue (VString "b") (mvBinding "X") {[ "X"%string := VString "a" ]}
    = (true, {[ "X"%string := VString "b" ]}) /\
  map (fun m => Match_Bindings m !! "X")
      (MatchBlock Sample.walksAll Sample.file_m (Sample.blockOf [Sample.matchSameName] []))
    = map (fun f => Some (field f "Body")) [Sample.hello; Sample.goodbye].
Proof. split; vm_compute; reflexivity. Qed.

(** C4 (as the code has it).  A SpreadBinding [$X...] unified against a
    present field value always succeeds and binds [X] to that value, whatever
    its shape: a list, a single node, an identifier or a string. *)
Theorem matchValue_spread_any_value
    (n : Node) (name : string) (value : Value) (s : SpreadBinding)
    (pat : option ASTPattern) (lst : option (list MatchValue))
    (exact : option string) (bindings : Bindings) :
  matchValue value (mkMatchValue (Some s) None pat lst exact false) bindings
    = (true, <[SpreadBinding_Name s := value]> bindings) /\
  (getField n name <> VNil ->
   matchField n (mkFieldMatch name (mkMatchValue (Some s) None pat lst exact false)) bindings
     = (true, <[SpreadBinding_Name s := getField n name]> bindings)).
Proof.
  split; [reflexivity|]. intros Hne. simpl.
  by destruct (getField n name).
Qed.

Lemma matchValue_spread_any_value_witness :
  matchField Sample.hello (Sample.fm "name" (mvSpread "X")) ∅
    = (true, {[ "X"%string := VNode (Sample.ident 3 "Hello") ]}).
Proof.
  apply (matchValue_spread_any_value Sample.hello "name" VNil
           {| SpreadBinding_Name := "X" |} None None None ∅).
  vm_compute. discriminate.
Defined.

(** C4 fails as stated: [name: $X...] unifies with the [Name] of a function
    declaration, which is a single identifier and no list. *)
Lemma matchValue_spread_non_list_counterexample :
  toSlice (getField Sample.hello "name") = None /\
  fst (matchField Sample.hello (Sample.fm "name" (mvSpread "X")) ∅) = true /\
  fst (matchValue (VString "s") (mvSpread "X") ∅) = true.
Proof. repeat split; vm_compute; reflexivity. Qed.

(** C2, the code at the failing input.  [results: $R...] against the
    function type of [func Goodbye() {}], whose [Results] is nil: the field
    unifies, and [R] is left out of the bindings; the simple binding
    [results: $R] binds [R] to nil there.  [MatchBlock] returns the match of
    [Goodbye]'s type without the key [R]. *)
Theorem matchField_spread_absent_leaves_unbound :
  getField Sample.goodbye_type "results" = VNil /\
  matchField Sample.goodbye_type (Sample.fm "results" (mvSpread "R")) ∅ = (true, ∅) /\
  matchField Sample.goodbye_type (Sample.fm "results" (mvBinding "R")) ∅
    = (true, {[ "R"%string := VNil ]}) /\
  map (fun m => (addr (Match_Node m),
                 bool_decide (is_Some (Match_Bindings m !! "P")),
                 bool_decide (is_Some (Match_Bindings m !! "R"))))
      (MatchBlock Sample.walksAll Sample.file_m (Sample.blockOf [Sample.matchFuncType] []))
    = [(4%positive, true, true); (17%positive, true, false)].
Proof. repeat split; vm_compute; reflexivity. Qed.

(** *** Contains *)

Section ContainsFacts.

Variable walks : string -> string -> bool.
Variable pred : ContainsPred.

Lemma evalContains_visit_some n :
  evalContains_visit pred (Some n) false
  = if containsHit pred n then (false, true) else (true, false).
Proof.
  unfold evalContains_visit, containsHit.
  destruct (nodeTypeMatches _ _); simpl; [|done]. by destruct (fst _).
Qed.

Lemma Inspect_found n : Inspect walks (evalContains_visit pred) n true = true.
Proof. by rewrite Inspect_eq. Qed.

Lemma fold_found (l : list Node) :
  fold_left (fun s c => Inspect walks (evalContains_visit pred) c s) l true = true.
Proof. induction l as [|c l IH]; simpl; [done|]. by rewrite Inspect_found. Qed.

Lemma fold_search (l : list Node) :
  fold_left (fun s c => Inspect walks (evalContains_visit pred) c s) l false = true
  <-> exists c, c ∈ l /\ Inspect walks (evalContains_visit pred) c false = true.
Proof.
  induction l as [|c l IH]; simpl.
  - split; [done|]. intros [c [Hc _]]. by apply elem_of_nil in Hc.
  - destruct (Inspect walks (evalContains_visit pred) c false) eqn:E.
    + rewrite fold_found. split; [|done]. intros _. exists c. split; [left|done].
    + rewrite IH. split.
      * intros [c' [Hc' H]]. exists c'. split; [by right|done].
      * intros [c' [Hc' H]]. apply elem_of_cons in Hc' as [->|Hc'];
          [congruence|]. by exists c'.
Qed.

(** The traversal finds a hit exactly when the subtree holds one. *)
Lemma Inspect_contains n :
  Inspect walks (evalContains_visit pred) n false = true
  <-> exists x, within walks x n /\ containsHit pred x = true.
Proof.
  induction n as [n IH] using (Node_children_ind walks).
  rewrite Inspect_eq, evalContains_visit_some.
  destruct (containsHit pred n) eqn:Hn.
  - split; [|done]. intros _. exists n. split; [constructor|done].
  - simpl. rewrite fold_search. split.
    + intros [c [Hc H]]. apply (IH c Hc) in H as [x [Hx Hhit]].
      exists x. split; [|done]. by eapply within_child.
    + intros [x [Hx Hhit]]. inversion Hx as [|? c ? Hc Hxc]; subst; [congruence|].
      exists c. split; [done|]. apply (IH c Hc). by exists x.
Qed.

End ContainsFacts.

(** C7.  [Contains] is monotonic in its scope: when the binding is mapped to
    a node [n] and [evalContains] is true, it is also true with the binding
    mapped to any node [n'] whose subtree contains [n]; the same holds of
    [EvalPredicate] on a [contains] predicate. *)
Theorem evalContains_monotone
    (walks : string -> string -> bool) (pred : ContainsPred)
    (bindings : Bindings) (n n' : Node) :
  within walks n n' ->
  (evalContains walks pred (<[ContainsPred_Binding pred := VNode n]> bindings) = true ->
   evalContains walks pred (<[ContainsPred_Binding pred := VNode n']> bindings) = true) /\
  (forall lenCheck memberCheck propCheck,
     let p := mkPredicate None (Some pred) lenCheck memberCheck propCheck in
     EvalPredicate walks p (<[ContainsPred_Binding pred := VNode n]> bindings) = true ->
     EvalPredicate walks p (<[ContainsPred_Binding pred := VNode n']> bindings) = true).
Proof.
  intros Hsub.
  assert (H : evalContains walks pred (<[ContainsPred_Binding pred := VNode n]> bindings)
              = true ->
              evalContains walks pred (<[ContainsPred_Binding pred := VNode n']> bindings)
              = true).
  { unfold evalContains. rewrite !lookup_insert_eq. simpl.
    rewrite !Inspect_contains. intros [x [Hx Hhit]].
    exists x. split; [|done]. by eapply within_trans. }
  split; [exact H|]. intros lenCheck memberCheck propCheck p. exact H.
Qed.

(** [contains($B, ReturnStmt { })] holds of the body of [Hello], hence of
    the declaration of [Hello]. *)
Lemma evalContains_monotone_witness :
  let pred := {| ContainsPred_Binding := "B";
                 ContainsPred_Pattern := mkASTPattern "ReturnStmt" [] |} in
  evalContains Sample.walksAll pred {[ "B"%string := VNode Sample.hello_body ]} = true /\
  evalContains Sample.walksAll pred
    (<["B"%string := VNode Sample.hello]> {[ "B"%string := VNode Sample.hello_body ]}) = true.
Proof.
  intros pred. split; [reflexivity|].
  assert (Hsub : within Sample.walksAll Sample.hello_body Sample.hello).
  { apply (within_child _ _ Sample.hello_body); [|apply within_refl].
    apply list_elem_of_In. vm_compute. tauto. }
  apply (proj1 (evalContains_monotone Sample.walksAll pred _ _ _ Hsub)).
  reflexivity.
Defined.

(** ** Properties of the executor *)

(** *** The regular expression *)

Module regexp_facts.

Import regexp.

#[local] Arguments String.append !_ _ / : simpl nomatch.

Lemma span_elim p s a b :
  span p s = (a, b) -> s = a +:+ b /\ allb p a = true /\ headFails p b.
Proof.
  revert a b. induction s as [|c s IH]; intros a b; simpl.
  - intros [= <- <-]. done.
  - destruct (p c) eqn:Hc.
    + destruct (span p s) as [a' b'] eqn:E. intros [= <- <-].
      destruct (IH a' b' eq_refl) as (-> & Ha & Hb). simpl. rewrite Hc. done.
    + intros [= <- <-]. simpl. done.
Qed.

Lemma span_intro p a b :
  allb p a = true -> headFails p b -> span p (a +:+ b) = (a, b).
Proof.
  induction a as [|c a IH]; simpl.
  - intros _ Hb. destruct b as [|c b]; simpl in *; [done|]. by rewrite Hb.
  - intros [Hc Ha]%andb_prop Hb. rewrite Hc, IH; done.
Qed.

Lemma space_not_word c : isSpace c = true -> isWord c = false.
Proof.
  destruct c as [[] [] [] [] [] [] [] []]; vm_compute; try congruence.
Qed.

Lemma append_assoc (a b c : string) : (a +:+ b) +:+ c = a +:+ (b +:+ c).
Proof. induction a as [|x a IH]; simpl; [done|]. by rewrite IH. Qed.

Lemma length_append (a b : string) :
  String.length (a +:+ b) = (String.length a + String.length b)%nat.
Proof. induction a as [|x a IH]; simpl; [done|]. by rewrite IH. Qed.

Lemma closing_elim name after m :
  closing name after = Some m ->
  after = String "}" (rest m) /\ full m = "${" +:+ name +:+ "}" /\
  group1 m = name /\ group2 m = EmptyString.
Proof.
  unfold closing. destruct after as [|c r]; [done|].
  destruct c as [[] [] [] [] [] [] [] []]; try done.
  intros [= <-]. done.
Qed.

Lemma matchHere_split s m : matchHere s = Some m -> s = full m +:+ rest m.
Proof.
  unfold matchHere.
  destruct s as [|c0 s]; [done|].
  destruct c0 as [[] [] [] [] [] [] [] []]; try done.
  destruct s as [|c1 s1]; [done|].
  destruct c1 as [[] [] [] [] [] [] [] []]; try done.
  destruct (span isWord s1) as [name s2] eqn:E1.
  apply span_elim in E1 as (-> & Hname & Hs2).
  destruct name as [|n0 name]; [done|].
  destruct (span isSpace s2) as [ws1 s3] eqn:E2.
  assert (Hclose : closing (String n0 name) s2 = Some m ->
      ("${" +:+ String n0 name +:+ s2) = full m +:+ rest m).
  { intros (-> & -> & _)%closing_elim. simpl. f_equal. f_equal. f_equal.
    by rewrite append_assoc. }
  destruct s3 as [|c3 s4]; [done|].
  destruct c3 as [[] [] [] [] [] [] [] []]; try done.
  destruct (span isSpace s4) as [ws2 s5] eqn:E3.
  destruct (span isWord s5) as [tr s6] eqn:E4.
  destruct tr as [|t0 tr]; [done|].
  destruct s6 as [|c6 r]; [done|].
  destruct c6 as [[] [] [] [] [] [] [] []]; try done.
  intros [= <-]. simpl.
  apply span_elim in E2 as (-> & _ & _).
  apply span_elim in E3 as (-> & _ & _).
  apply span_elim in E4 as (-> & _ & _).
  simpl. do 3 f_equal. rewrite !append_assoc. simpl.
  do 2 f_equal. rewrite !append_assoc. simpl. do 2 f_equal.
  rewrite !append_assoc. done.
Qed.

Lemma word_not_space c : isWord c = true -> isSpace c = false.
Proof.
  intros Hw. destruct (isSpace c) eqn:Hs; [|done].
  apply space_not_word in Hs. congruence.
Qed.

Lemma span_app_stop p a c d :
  p c = false ->
  span p (a +:+ String c d) = ((span p a).1, (span p a).2 +:+ String c d).
Proof.
  intros Hc. induction a as [|x a IH]; simpl.
  - by rewrite Hc.
  - destruct (p x); [|done]. rewrite IH. by destruct (span p a).
Qed.

#[local] Arguments span : simpl never.

Lemma span_intro_cons p c a b :
  allb p (String c a) = true -> headFails p b ->
  span p (String c (a +:+ b)) = (String c a, b).
Proof. apply (span_intro p (String c a) b). Qed.

Lemma matchHere_full s m : matchHere s = Some m -> matchHere (full m) = Some (anchored m).
Proof.
  unfold matchHere at 1.
  destruct s as [|c0 s]; [done|].
  destruct c0 as [[] [] [] [] [] [] [] []]; try done.
  destruct s as [|c1 s1]; [done|].
  destruct c1 as [[] [] [] [] [] [] [] []]; try done.
  destruct (span isWord s1) as [name s2] eqn:E1.
  apply span_elim in E1 as (-> & Hname & Hs2).
  destruct name as [|n0 name]; [done|].
  destruct (span isSpace s2) as [ws1 s3] eqn:E2.
  assert (Hclose : closing (String n0 name) s2 = Some m ->
      matchHere (full m) = Some (anchored m)).
  { intros (_ & Hf & Hg1 & Hg2)%closing_elim.
    unfold anchored. rewrite Hf, Hg1, Hg2. simpl.
    rewrite (span_intro_cons isWord n0 name "}" Hname eq_refl). done. }
  destruct s3 as [|c3 s4]; [done|].
  destruct c3 as [[] [] [] [] [] [] [] []]; try done.
  destruct (span isSpace s4) as [ws2 s5] eqn:E3.
  destruct (span isWord s5) as [tr s6] eqn:E4.
  destruct tr as [|t0 tr]; [done|].
  destruct s6 as [|c6 r]; [done|].
  destruct c6 as [[] [] [] [] [] [] [] []]; try done.
  intros [= <-]. unfold anchored.
  apply span_elim in E2 as (_ & Hws1 & _).
  apply span_elim in E3 as (_ & Hws2 & _).
  apply span_elim in E4 as (_ & Htr & _).
  simpl.
  rewrite (span_intro_cons isWord n0 name); [|done|].
  2:{ destruct ws1 as [|w ws1]; simpl; [done|].
      simpl in Hws1. apply andb_prop in Hws1 as [Hw _]. by apply space_not_word. }
  rewrite (span_intro isSpace ws1); [|done|done].
  rewrite (span_intro isSpace ws2); [|done|].
  2:{ simpl. simpl in Htr. apply andb_prop in Htr as [Hw _]. by apply word_not_space. }
  rewrite (span_intro_cons isWord t0 tr "}" Htr eq_refl). done.
Qed.

Lemma FindStringSubmatch_eq s :
  FindStringSubmatch s =
    match matchHere s with
    | Some m => Some [full m; group1 m; group2 m]
    | None => match s with
              | String _ s' => FindStringSubmatch s'
              | EmptyString => None
              end
    end.
Proof. by destruct s. Qed.

Lemma FindStringSubmatch_full s m :
  matchHere s = Some m ->
  FindStringSubmatch (full m) = Some [full m; group1 m; group2 m].
Proof.
  intros H%matchHere_full. by rewrite FindStringSubmatch_eq, H.
Qed.

Lemma replaceFrom_skip repl (a r : string) :
  replaceFrom repl (a +:+ r) (String.length a) = replaceFrom repl r 0.
Proof.
  induction a as [|c a IH]; simpl; [|done].
  by destruct r.
Qed.

Lemma matchHere_nonempty s m : matchHere s = Some m -> exists c f, full m = String c f.
Proof.
  intros H%matchHere_full. destruct (full m) as [|c f]; [done|]. by exists c, f.
Qed.

Lemma replaceFrom_cons repl c s :
  replaceFrom repl (String c s) 0 =
    match matchHere (String c s) with
    | Some m => repl (full m) +:+ replaceFrom repl s (String.length (full m) - 1)
    | None => String c (replaceFrom repl s 0)
    end.
Proof. reflexivity. Qed.

Lemma replaceFrom_match repl s m :
  matchHere s = Some m ->
  replaceFrom repl s 0 = repl (full m) +:+ replaceFrom repl (rest m) 0.
Proof.
  intros H. pose proof (matchHere_split _ _ H) as Hs.
  destruct (matchHere_nonempty _ _ H) as (c & f & Hf).
  rewrite Hf in Hs. simpl in Hs. subst s.
  rewrite replaceFrom_cons, H, Hf. f_equal.
  replace (String.length (String c f) - 1)%nat with (String.length f)
    by (simpl; lia).
  apply replaceFrom_skip.
Qed.

Lemma matchHere_plain name post :
  name <> EmptyString -> allb isWord name = true ->
  matchHere ("${" +:+ name +:+ "}" +:+ post)
  = Some {| full := "${" +:+ name +:+ "}"; group1 := name;
            group2 := EmptyString; rest := post |}.
Proof.
  intros Hne Hw. destruct name as [|n0 name]; [done|]. simpl.
  rewrite (span_intro_cons isWord n0 name (String "}" post) Hw eq_refl).
  done.
Qed.


(** A text that goes on with [$]: no match starts before the [$] and runs
    over it. *)
Lemma closing_app name after d :
  closing name (after +:+ String "$" d)
  = followedBy (String "$" d) <$> closing name after.
Proof.
  destruct after as [|c r]; [done|].
  destruct c as [[] [] [] [] [] [] [] []]; done.
Qed.

Lemma matchHere_app a d :
  a <> EmptyString ->
  matchHere (a +:+ String "$" d) = followedBy (String "$" d) <$> matchHere a.
Proof.
  intros Ha. destruct a as [|c0 a1]; [done|]. clear Ha.
  destruct c0 as [[] [] [] [] [] [] [] []]; try done.
  destruct a1 as [|c1 a2]; [done|].
  destruct c1 as [[] [] [] [] [] [] [] []]; try done.
  change (String "$" (String "{" a2) +:+ String "$" d)
    with (String "$" (String "{" (a2 +:+ String "$" d))).
  unfold matchHere.
  rewrite (span_app_stop isWord a2 "$" d eq_refl).
  destruct (span isWord a2) as [name s2]. cbn [fst snd].
  destruct name as [|n0 name]; [done|].
  rewrite (span_app_stop isSpace s2 "$" d eq_refl).
  destruct (span isSpace s2) as [ws1 s3]. cbn [fst snd].
  pose proof (closing_app (String n0 name) s2 d) as Hclose.
  destruct s3 as [|c3 s4]; [exact Hclose|].
  destruct c3 as [[] [] [] [] [] [] [] []]; try exact Hclose.
  change (String "|" s4 +:+ String "$" d) with (String "|" (s4 +:+ String "$" d)).
  cbv iota.
  rewrite (span_app_stop isSpace s4 "$" d eq_refl).
  destruct (span isSpace s4) as [ws2 s5]. cbn [fst snd].
  rewrite (span_app_stop isWord s5 "$" d eq_refl).
  destruct (span isWord s5) as [tr s6]. cbn [fst snd].
  destruct tr as [|t0 tr]; [exact Hclose|].
  destruct s6 as [|c6 r]; [exact Hclose|].
  destruct c6 as [[] [] [] [] [] [] [] []]; try exact Hclose.
  done.
Qed.

Lemma replaceFrom_app repl pre d k :
  (k <= String.length pre)%nat ->
  replaceFrom repl (pre +:+ String "$" d) k
  = replaceFrom repl pre k +:+ replaceFrom repl (String "$" d) 0.
Proof.
  revert k. induction pre as [|c p IH]; intros k Hk.
  - simpl in Hk. by replace k with 0%nat by lia.
  - destruct k as [|k].
    + change (String c p +:+ String "$" d) with (String c (p +:+ String "$" d)).
      rewrite !replaceFrom_cons.
      change (String c (p +:+ String "$" d)) with (String c p +:+ String "$" d).
      rewrite matchHere_app by done.
      destruct (matchHere (String c p)) as [m|] eqn:E; simpl.
      * pose proof (matchHere_split _ _ E) as Hs.
        destruct (matchHere_nonempty _ _ E) as (c' & f & Hf).
        rewrite IH, append_assoc; [done|].
        rewrite Hf in Hs. simpl in Hs. injection Hs as _ ->.
        rewrite Hf, length_append. simpl. lia.
      * rewrite IH; [done|lia].
    + simpl. apply IH. simpl in Hk. lia.
Qed.

End regexp_facts.

(** *** Interpolation *)

Section InterpolateFacts.

Variable go : golang.

Lemma interpolate_repl_full bindings s m :
  regexp.matchHere s = Some m ->
  interpolate_repl go bindings (regexp.full m) =
    match bindings !! regexp.group1 m with
    | None => regexp.full m
    | Some val =>
        if negb (String.eqb (regexp.group2 m) EmptyString)
        then applyTransform (bindingToString go val) (regexp.group2 m)
        else bindingToString go val
    end.
Proof.
  intros H. unfold interpolate_repl. by rewrite (regexp_facts.FindStringSubmatch_full _ _ H).
Qed.

Lemma interpolate_equations (bindings : Bindings) :
  (forall c s, regexp.matchHere (String c s) = None ->
     interpolate go (String c s) bindings = String c (interpolate go s bindings)) /\
  (forall s m, regexp.matchHere s = Some m ->
     s = regexp.full m +:+ regexp.rest m /\
     interpolate go s bindings =
       match bindings !! regexp.group1 m with
       | None => regexp.full m
       | Some val =>
           if negb (String.eqb (regexp.group2 m) EmptyString)
           then applyTransform (bindingToString go val) (regexp.group2 m)
           else bindingToString go val
       end +:+ interpolate go (regexp.rest m) bindings) /\
  (forall name post,
     name <> EmptyString -> regexp.allb regexp.isWord name = true ->
     bindings !! name = None ->
     interpolate go ("${" +:+ name +:+ "}" +:+ post) bindings
     = "${" +:+ name +:+ "}" +:+ interpolate go post bindings).
Proof.
  unfold interpolate, regexp.ReplaceAllStringFunc. split; [|split].
  - intros c s H. by rewrite regexp_facts.replaceFrom_cons, H.
  - intros s m H. split; [by apply regexp_facts.matchHere_split|].
    rewrite (regexp_facts.replaceFrom_match _ _ _ H). f_equal.
    apply (interpolate_repl_full _ _ _ H).
  - intros name post Hne Hw Hb.
    pose proof (regexp_facts.matchHere_plain name post Hne Hw) as H.
    rewrite (regexp_facts.replaceFrom_match _ _ _ H).
    rewrite (interpolate_repl_full _ _ _ H). cbn [regexp.full regexp.group1 regexp.group2 regexp.rest].
    rewrite Hb. by rewrite !regexp_facts.append_assoc.
Qed.


(** Interpolation of a text splits at every [$]. *)
Lemma interpolate_app_dollar bindings pre d :
  interpolate go (pre +:+ String "$" d) bindings
  = interpolate go pre bindings +:+ interpolate go (String "$" d) bindings.
Proof.
  unfold interpolate, regexp.ReplaceAllStringFunc.
  apply regexp_facts.replaceFrom_app. lia.
Qed.

Lemma interpolate_occurrence bindings pre name post :
  name <> EmptyString -> regexp.allb regexp.isWord name = true ->
  interpolate go (pre +:+ "${" +:+ name +:+ "}" +:+ post) bindings
  = interpolate go pre bindings
    +:+ match bindings !! name with
        | None => "${" +:+ name +:+ "}"
        | Some val => bindingToString go val
        end
    +:+ interpolate go post bindings.
Proof.
  intros Hne Hw.
  change (pre +:+ "${" +:+ name +:+ "}" +:+ post)
    with (pre +:+ String "$" ("{" +:+ name +:+ "}" +:+ post)).
  rewrite interpolate_app_dollar. f_equal.
  destruct (interpolate_equations bindings) as (_ & Hsome & _).
  destruct (Hsome _ _ (regexp_facts.matchHere_plain name post Hne Hw)) as [_ H].
  etrans; [exact H|]. cbn [regexp.full regexp.group1 regexp.group2 regexp.rest].
  destruct (bindings !! name); [done|].
  by rewrite !regexp_facts.append_assoc.
Qed.

(** Without bindings, interpolation is the identity. *)
Lemma interpolate_no_bindings text : interpolate go text ∅ = text.
Proof.
  remember (String.length text) as n eqn:Hn. revert text Hn.
  induction n as [n IH] using lt_wf_ind. intros text ->.
  destruct text as [|c s]; [done|].
  destruct (interpolate_equations ∅) as (Hnone & Hsome & _).
  destruct (regexp.matchHere (String c s)) as [m|] eqn:E.
  - destruct (Hsome _ _ E) as [Hs ->]. rewrite lookup_empty.
    etrans; [|symmetry; exact Hs]. f_equal.
    destruct (regexp_facts.matchHere_nonempty _ _ E) as (c' & f & Hf).
    apply (IH (String.length (regexp.rest m))); [|done].
    rewrite Hs, regexp_facts.length_append, Hf. simpl. lia.
  - rewrite (Hnone _ _ E). f_equal. apply (IH (String.length s)); [simpl; lia|done].
Qed.

End InterpolateFacts.

(** C9.  For every template text and bindings map: an occurrence of
    [${Name}] whose [Name] is not a key of the bindings stays in the output
    as it is, the text before it and the text after it being interpolated
    on their own; where [Name] is bound (and no transform is given) the
    occurrence is replaced by the value's string, which is copied to the
    output and never scanned again.  Interpolation is a single pass from
    left to right: a byte at which no pattern starts is copied, and where a
    pattern starts the pass continues in the template after the match. *)
Theorem interpolate_single_pass (go : golang) (bindings : Bindings) :
  (forall pre name post,
     name <> EmptyString -> regexp.allb regexp.isWord name = true ->
     bindings !! name = None ->
     interpolate go (pre +:+ "${" +:+ name +:+ "}" +:+ post) bindings
     = interpolate go pre bindings +:+ ("${" +:+ name +:+ "}")
       +:+ interpolate go post bindings) /\
  (forall pre name post val,
     name <> EmptyString -> regexp.allb regexp.isWord name = true ->
     bindings !! name = Some val ->
     interpolate go (pre +:+ "${" +:+ name +:+ "}" +:+ post) bindings
     = interpolate go pre bindings +:+ bindingToString go val
       +:+ interpolate go post bindings) /\
  (forall c s, regexp.matchHere (String c s) = None ->
     interpolate go (String c s) bindings = String c (interpolate go s bindings)) /\
  (forall s m, regexp.matchHere s = Some m ->
     s = regexp.full m +:+ regexp.rest m /\
     interpolate go s bindings =
       match bindings !! regexp.group1 m with
       | None => regexp.full m
       | Some val =>
           if negb (String.eqb (regexp.group2 m) EmptyString)
           then applyTransform (bindingToString go val) (regexp.group2 m)
           else bindingToString go val
       end +:+ interpolate go (regexp.rest m) bindings).
Proof.
  destruct (interpolate_equations go bindings) as (Hnone & Hsome & _).
  repeat split.
  - intros pre name post Hne Hw Hb.
    by rewrite (interpolate_occurrence go bindings pre name post Hne Hw), Hb.
  - intros pre name post val Hne Hw Hb.
    by rewrite (interpolate_occurrence go bindings pre name post Hne Hw), Hb.
  - exact Hnone.
  - by apply Hsome.
  - by apply Hsome.
Qed.

Lemma interpolate_single_pass_witness :
  interpolate Sample.go0 ("a ${X} and " +:+ "${" +:+ "Name" +:+ "}" +:+ "!")
              {[ "X"%string := VString "${Y}" ]}
  = interpolate Sample.go0 "a ${X} and " {[ "X"%string := VString "${Y}" ]}
    +:+ ("${" +:+ "Name" +:+ "}")
    +:+ interpolate Sample.go0 "!" {[ "X"%string := VString "${Y}" ]}.
Proof.
  apply (proj1 (interpolate_single_pass Sample.go0
                  {[ "X"%string := VString "${Y}" ]}) "a ${X} and " "Name" "!").
  - discriminate.
  - reflexivity.
  - reflexivity.
Defined.

(** The value of [X] is a pattern itself and is not expanded; the unbound
    [Z] stays; [${ Z }] is no pattern. *)
Example interpolate_not_recursive :
  interpolate Sample.go0 "${X} ${Y|upper} ${ Z } ${Z}"
    {[ "X"%string := VString "${Y}"; "Y"%string := VString "helloWorld" ]}
  = "${Y} HELLOWORLD ${ Z } ${Z}"%string.
Proof. vm_compute. reflexivity. Qed.

(** *** The executor's monad *)

Lemma bind_ok {A B} (c : exec A) (k : A -> exec B) e e' a :
  c e = (e', Ok a) -> (c ≫= k) e = k a e'.
Proof. intros H. unfold mbind, exec_bind. by rewrite H. Qed.

Lemma bind_err {A B} (c : exec A) (k : A -> exec B) e e' err :
  c e = (e', Err err) -> (c ≫= k) e = (e', Err err).
Proof. intros H. unfold mbind, exec_bind. by rewrite H. Qed.

Lemma wrap_ok {A} msg (c : exec A) e e' a :
  c e = (e', Ok a) -> wrap msg c e = (e', Ok a).
Proof. intros H. unfold wrap. by rewrite H. Qed.

Lemma wrap_err {A} msg (c : exec A) e e' err :
  c e = (e', Err err) -> wrap msg c e = (e', Err (Wrapf msg err)).
Proof. intros H. unfold wrap. by rewrite H. Qed.

Lemma foldM_app {A B} (f : B -> A -> exec B) l1 l2 b e :
  foldM f (l1 ++ l2) b e = (foldM f l1 b ≫= foldM f l2) e.
Proof.
  revert b e. induction l1 as [|x l1 IH]; intros b e; simpl; [done|].
  unfold mbind, exec_bind in *. destruct (f b x e) as [e1 [b1|err]]; [|done].
  apply IH.
Qed.

Lemma foldM_ok_app {A B} (f : B -> A -> exec B) l1 l2 b e e1 b1 :
  foldM f l1 b e = (e1, Ok b1) ->
  foldM f (l1 ++ l2) b e = foldM f l2 b1 e1.
Proof. intros H. rewrite foldM_app. by apply bind_ok. Qed.

Lemma foldM_err_app {A B} (f : B -> A -> exec B) l1 l2 b e e1 err :
  foldM f l1 b e = (e1, Err err) ->
  foldM f (l1 ++ l2) b e = (e1, Err err).
Proof. intros H. rewrite foldM_app. by apply bind_err. Qed.


(** *** Emit *)

Section EmitFacts.

Variable go : golang.

(** [executeEmit] leaves the executor as it is. *)
Lemma executeEmit_state emit bindings e : (executeEmit go emit bindings e).1 = e.
Proof.
  unfold executeEmit.
  destruct (EmitClause_Template emit); [done|].
  destruct (EmitClause_CodeBody emit).
  - by destruct (EmitClause_Package emit).
  - by destruct (EmitClause_ASTBody emit).
Qed.

Lemma executeEmit_ok emit bindings e content :
  (executeEmit go emit bindings e).2 = Ok content ->
  executeEmit go emit bindings e = (e, Ok content).
Proof.
  intros H. rewrite <- (executeEmit_state emit bindings e) at 2.
  rewrite <- H. by destruct (executeEmit go emit bindings e).
Qed.

Lemma executeEmit_template emit tpl bindings e :
  EmitClause_Template emit = Some tpl ->
  executeEmit go emit bindings e
  = (e, Ok (interpolate go (strings.Trim (TplEmitBlock_Text tpl) backtick)
                        (view e bindings))).
Proof. intros H. unfold executeEmit. by rewrite H. Qed.

Lemma Execute_apply_emit emit result m e content :
  executeEmit go emit (Match_Bindings m) e = (e, Ok content) ->
  Execute_apply go (emitOnly emit) result m e = (e, Ok (emitted emit content result)).
Proof.
  intros H. unfold Execute_apply, emitOnly. simpl.
  unfold mbind, exec_bind, mret, exec_ret. simpl.
  by rewrite (wrap_ok _ _ _ _ _ H).
Qed.

Lemma foldM_emit emit (content : Match -> string) e ms result :
  (forall m, m ∈ ms -> executeEmit go emit (Match_Bindings m) e = (e, Ok (content m))) ->
  foldM (Execute_apply go (emitOnly emit)) ms result e
  = (e, Ok (fold_left (fun r m => emitted emit (content m) r) ms result)).
Proof.
  revert result. induction ms as [|m ms IH]; intros result Hms; simpl; [done|].
  unfold mbind, exec_bind.
  rewrite (Execute_apply_emit emit result m e (content m)); [|apply Hms; left].
  apply IH. intros m' Hm'. apply Hms. by right.
Qed.

Lemma emitted_files emit (content : Match -> string) ms mlast result :
  Result_EmittedFiles
    (fold_left (fun r m => emitted emit (content m) r) (ms ++ [mlast]) result)
  = <[strings.Trim (EmitClause_File emit) quote := content mlast]>
      (Result_EmittedFiles (fold_left (fun r m => emitted emit (content m) r) ms result)).
Proof. by rewrite fold_left_app. Qed.

Lemma emitted_files_dom emit (content : Match -> string) ms result :
  forall f, f <> strings.Trim (EmitClause_File emit) quote ->
  Result_EmittedFiles (fold_left (fun r m => emitted emit (content m) r) ms result) !! f
  = Result_EmittedFiles result !! f.
Proof.
  intros f Hf. revert result. induction ms as [|m ms IH]; intros result; simpl; [done|].
  rewrite IH. simpl. by rewrite lookup_insert_ne.
Qed.

Lemma emitted_applied emit (content : Match -> string) ms result :
  Result_Applied (fold_left (fun r m => emitted emit (content m) r) ms result)
  = Result_Applied result
    ++ repeat ("emit:" +:+ strings.Trim (EmitClause_File emit) quote) (length ms).
Proof.
  revert result. induction ms as [|m ms IH]; intros result; simpl.
  - by rewrite app_nil_r.
  - rewrite IH. simpl. by rewrite <- app_assoc.
Qed.


End EmitFacts.

(** C10.  When the one action of a block is an emit clause and it executes
    successfully over a non-empty list of matches (with content [content m]
    for match [m]), [Result.EmittedFiles] holds exactly one entry, for the
    emit's filename, and its content is the one produced from the last match
    in match order; [Applied] holds one [emit:<filename>] per match.  For a
    template body [content m] is the interpolation of the template against
    the bindings of [m] ([executeEmit_template]). *)
Theorem Execute_emit_last_match_wins (go : golang)
    (block : LiftBlock) (emit : EmitClause) (ms : list Match) (mlast : Match)
    (content : Match -> string) (e : Executor) (src : string) :
  LiftBlock_Actions block = [emitOnly emit] ->
  (forall m, m ∈ ms ++ [mlast] ->
     (executeEmit go emit (Match_Bindings m) e).2 = Ok (content m)) ->
  format_Node go (Executor_file (addImports go e)) = Some src ->
  Execute go block (ms ++ [mlast]) e =
    (addImports go e,
     Ok {| Result_ModifiedSource := src;
           Result_EmittedFiles :=
             {[ strings.Trim (EmitClause_File emit) quote := content mlast ]};
           Result_Applied :=
             repeat ("emit:" +:+ strings.Trim (EmitClause_File emit) quote)
                    (length (ms ++ [mlast])) |}).
Proof.
  intros Hact Hemit Hfmt. unfold Execute, Execute_loops. rewrite Hact. simpl foldM.
  unfold mbind at 1, exec_bind at 1. unfold mbind at 1, exec_bind at 1.
  rewrite (foldM_emit go emit content e).
  2:{ intros m Hm. by apply executeEmit_ok, Hemit. }
  unfold mret at 1, exec_ret at 1.
  unfold mbind, exec_bind, modify, get. rewrite Hfmt.
  unfold mret, exec_ret. f_equal. f_equal. f_equal.
  - apply map_eq. intros f. rewrite emitted_files.
    destruct (decide (f = strings.Trim (EmitClause_File emit) quote)) as [->|Hne].
    + by rewrite lookup_insert_eq, lookup_singleton_eq.
    + rewrite lookup_insert_ne, lookup_singleton_ne by done.
      by rewrite emitted_files_dom.
  - by rewrite emitted_applied.
Qed.

Lemma Execute_emit_last_match_wins_witness :
  let emit := Sample.emitTpl "names.txt" "func ${N}" in
  let content := fun m =>
    interpolate Sample.go0 (strings.Trim (String backtick "func ${N}`") backtick)
                (view Sample.executor0 (Match_Bindings m)) in
  Execute Sample.go0 (Sample.blockOf [Sample.matchFuncName] [emitOnly emit])
          ([Sample.m_hello] ++ [Sample.m_goodbye]) Sample.executor0
  = (addImports Sample.go0 Sample.executor0,
     Ok {| Result_ModifiedSource := "Hello Goodbye";
           Result_EmittedFiles :=
             {[ strings.Trim (EmitClause_File emit) quote := content Sample.m_goodbye ]};
           Result_Applied :=
             repeat ("emit:" +:+ strings.Trim (EmitClause_File emit) quote)
                    (length ([Sample.m_hello] ++ [Sample.m_goodbye])) |}).
Proof.
  intros emit content.
  apply (Execute_emit_last_match_wins Sample.go0
           (Sample.blockOf [Sample.matchFuncName] [emitOnly emit]) emit
           [Sample.m_hello] Sample.m_goodbye content Sample.executor0 "Hello Goodbye").
  - reflexivity.
  - intros m _. reflexivity.
  - vm_compute. reflexivity.
Defined.

(** The same run, evaluated: one entry, the content of the last match. *)
Example Execute_emit_twice :
  (Execute Sample.go0
     (Sample.blockOf [Sample.matchFuncName]
        [emitOnly (Sample.emitTpl "names.txt" "func ${N}")])
     Sample.nameMatches Sample.executor0).2
  = Ok {| Result_ModifiedSource := "Hello Goodbye";
          Result_EmittedFiles := {[ "names.txt"%string := "func Goodbye"%string ]};
          Result_Applied := ["emit:names.txt"; "emit:names.txt"]%string |}.
Proof. vm_compute. reflexivity. Qed.

(** *** Errors *)

Section ErrorFacts.

Variable go : golang.

Lemma foldM_map_pair action ms result e :
  foldM (Execute_apply go action) ms result e
  = foldM (Execute_step go) (map (pair action) ms) result e.
Proof.
  revert result e. induction ms as [|m ms IH]; intros result e; simpl; [done|].
  unfold mbind, exec_bind, Execute_step at 1. simpl.
  destruct (Execute_apply go action result m e) as [e1 [r1|err]]; [apply IH|done].
Qed.

Lemma Execute_loops_applications actions ms result e :
  Execute_loops go actions ms result e
  = foldM (Execute_step go) (applications actions ms) result e.
Proof.
  unfold Execute_loops, applications.
  revert result e. induction actions as [|a actions IH]; intros result e; simpl; [done|].
  rewrite foldM_app. unfold mbind, exec_bind. rewrite foldM_map_pair.
  destruct (foldM (Execute_step go) (map (pair a) ms) result e) as [e1 [r1|err]]; [apply IH|done].
Qed.


End ErrorFacts.

(** C5 (as the code has it).  When an action application fails, [Execute]
    stops there: it returns the error and no [Result], so no
    [ModifiedSource] is produced; no later application is executed and
    imports are not reconciled.  The executor is left as the failing
    application left it: the tree mutations of the earlier, successful
    applications stay in the executor's tree. *)
Theorem Execute_stops_at_first_error (go : golang)
    (block : LiftBlock) (matches : list Match) (e : Executor)
    (before after : list (Action * Match)) (action : Action) (m : Match)
    (e1 e2 : Executor) (r1 : Result) (err : error) :
  applications (LiftBlock_Actions block) matches = before ++ (action, m) :: after ->
  foldM (Execute_step go) before newResult e = (e1, Ok r1) ->
  Execute_apply go action r1 m e1 = (e2, Err err) ->
  Execute go block matches e = (e2, Err err).
Proof.
  intros Happ Hbefore Hfail. unfold Execute.
  apply bind_err. rewrite (Execute_loops_applications go), Happ.
  rewrite (foldM_ok_app _ _ _ _ _ _ _ Hbefore). simpl.
  by apply bind_err.
Qed.


Lemma Execute_stops_at_first_error_witness :
  let block := Sample.blockOf [Sample.matchFuncName] [Sample.renameN; Sample.deleteN] in
  let renamed :=
    foldM (Execute_step Sample.go0)
          (map (pair Sample.renameN) Sample.nameMatches) newResult Sample.executor0 in
  Execute Sample.go0 block Sample.nameMatches Sample.executor0
  = (renamed.1, Err (Wrapf "delete failed" (Errorf "delete not yet implemented"))).
Proof.
  intros block renamed.
  apply (Execute_stops_at_first_error Sample.go0 block Sample.nameMatches Sample.executor0
           (map (pair Sample.renameN) Sample.nameMatches)
           [(Sample.deleteN, Sample.m_goodbye)]
           Sample.deleteN Sample.m_hello renamed.1 renamed.1
           {| Result_ModifiedSource := EmptyString;
              Result_EmittedFiles := ∅;
              Result_Applied := ["patch"; "patch"]%string |}).
  - reflexivity.
  - vm_compute. reflexivity.
  - vm_compute. reflexivity.
Defined.

(** C5 fails as stated: the second action of the block is a delete, which
    fails; the first action has renamed both functions in the tree, and
    [Execute] returns the error without a [Result], hence without any
    [ModifiedSource] that would show the renaming. *)
Lemma Execute_abandons_run_counterexample :
  let run := Execute Sample.go0
               (Sample.blockOf [Sample.matchFuncName] [Sample.renameN; Sample.deleteN])
               Sample.nameMatches Sample.executor0 in
  run.2 = Err (Wrapf "delete failed" (Errorf "delete not yet implemented")) /\
  (forall result, run.2 <> Ok result) /\
  format_Node Sample.go0 (Executor_file Sample.executor0) = Some "Hello Goodbye"%string /\
  format_Node Sample.go0 (Executor_file run.1) = Some "Renamed Renamed"%string.
Proof.
  intros run.
  assert (H : run.2 = Err (Wrapf "delete failed" (Errorf "delete not yet implemented")))
    by (vm_compute; reflexivity).
  split; [exact H|]. split; [intros result; rewrite H; discriminate|].
  split; vm_compute; reflexivity.
Qed.

(** The renaming is rendered by the next successful [Execute] on the same
    executor (here a block without actions). *)
Example Execute_after_failure :
  let run := Execute Sample.go0
               (Sample.blockOf [Sample.matchFuncName] [Sample.renameN; Sample.deleteN])
               Sample.nameMatches Sample.executor0 in
  (Execute Sample.go0 (Sample.blockOf [Sample.matchFuncName] []) Sample.nameMatches run.1).2
  = Ok {| Result_ModifiedSource := "Renamed Renamed";
          Result_EmittedFiles := ∅;
          Result_Applied := [] |}.
Proof. intros run. vm_compute. reflexivity. Qed.

(** *** Struct fields *)

Lemma FieldByName_setField_eq fs k v : FieldByName (setField fs k v) k = Some v.
Proof.
  induction fs as [|[k' w] fs IH]; simpl.
  - by rewrite String.eqb_refl.
  - destruct (String.eqb k' k) eqn:E; simpl; by rewrite E.
Qed.

Lemma FieldByName_setField_ne fs k k' v :
  k <> k' -> FieldByName (setField fs k v) k' = FieldByName fs k'.
Proof.
  intros Hne. induction fs as [|[k0 w] fs IH]; simpl.
  - destruct (String.eqb k k') eqn:E; [|done]. by apply String.eqb_eq in E.
  - destruct (String.eqb k0 k) eqn:E; simpl.
    + apply String.eqb_eq in E as ->.
      destruct (String.eqb k k') eqn:E'; [|done]. by apply String.eqb_eq in E'.
    + by rewrite IH.
Qed.

Lemma setField_same fs k v : FieldByName fs k = Some v -> setField fs k v = fs.
Proof.
  induction fs as [|[k0 w] fs IH]; simpl; [done|].
  destruct (String.eqb k0 k) eqn:E.
  - by intros [= ->].
  - intros H. by rewrite IH.
Qed.

Lemma field_withField_eq n k v : field (withField n k v) k = v.
Proof. unfold field, withField. simpl. by rewrite FieldByName_setField_eq. Qed.

Lemma field_withField_ne n k k' v : k <> k' -> field (withField n k v) k' = field n k'.
Proof. intros H. unfold field, withField. simpl. by rewrite FieldByName_setField_ne. Qed.

Lemma withField_same n k v :
  FieldByName (fields n) k = Some v -> withField n k v = n.
Proof.
  intros H. destruct n as [a kd fs]. unfold withField. simpl in *.
  by rewrite setField_same.
Qed.

Lemma withField_withField n k v w : withField (withField n k v) k w = withField n k w.
Proof.
  destruct n as [a kd fs]. unfold withField. simpl. f_equal.
  induction fs as [|[k0 x] fs IH]; simpl.
  - by rewrite String.eqb_refl.
  - destruct (String.eqb k0 k) eqn:E; simpl; rewrite E; [done|]. by rewrite IH.
Qed.

Lemma FieldByName_withField_eq n k v : FieldByName (fields (withField n k v)) k = Some v.
Proof. apply FieldByName_setField_eq. Qed.

Lemma FieldByName_withField_ne n k k' v :
  k <> k' -> FieldByName (fields (withField n k v)) k' = FieldByName (fields n) k'.
Proof. apply FieldByName_setField_ne. Qed.


(** *** Import reconciliation *)

Lemma isImportDecl_withField gd k v :
  k <> "Tok"%string -> isImportDecl (withField gd k v) = isImportDecl gd.
Proof.
  intros H. unfold isImportDecl. by rewrite field_withField_ne.
Qed.

Lemma isImportDecl_forceParens gd : isImportDecl (forceParens gd) = isImportDecl gd.
Proof. unfold forceParens. by rewrite !isImportDecl_withField. Qed.

Lemma findImportDecl_lookup decls i gd :
  findImportDecl decls = Some (i, gd) ->
  decls !! i = Some (VNode gd) /\ isImportDecl gd = true.
Proof.
  revert i. induction decls as [|d decls IH]; intros i; simpl; [done|].
  assert (Hrest : prod_map S id <$> findImportDecl decls = Some (i, gd) ->
            (d :: decls) !! i = Some (VNode gd) /\ isImportDecl gd = true).
  { destruct (findImportDecl decls) as [[j gd']|]; simpl; [|done].
    intros [= <- <-]. by apply IH. }
  destruct d as [|n|l| |]; try done.
  destruct (isImportDecl n) eqn:E; [|done]. by intros [= <- <-].
Qed.

Lemma findImportDecl_update decls i gd gd' :
  findImportDecl decls = Some (i, gd) -> isImportDecl gd' = true ->
  findImportDecl (<[i := VNode gd']> decls) = Some (i, gd').
Proof.
  revert i. induction decls as [|d decls IH]; intros i; simpl; [done|].
  intros H Hgd'.
  assert (Hrest : prod_map S id <$> findImportDecl decls = Some (i, gd) ->
            exists j, i = S j /\ findImportDecl decls = Some (j, gd)).
  { destruct (findImportDecl decls) as [[j g]|]; simpl; [|done].
    intros [= <- <-]. by exists j. }
  destruct d as [|n|l| |];
    try (destruct (Hrest H) as (j & -> & Hj); simpl; by rewrite (IH j Hj Hgd')).
  destruct (isImportDecl n) eqn:E.
  - injection H as <- <-. simpl. by rewrite Hgd'.
  - destruct (Hrest H) as (j & -> & Hj). simpl. rewrite E. by rewrite (IH j Hj Hgd').
Qed.

Lemma existingImports_app l1 l2 :
  existingImports (l1 ++ l2) = existingImports l1 ++ existingImports l2.
Proof. apply omap_app. Qed.

Lemma existingImports_new a b imp :
  existingImports [VNode (newImportSpec a b imp)] = [strings.Trim (quoted imp) quote].
Proof. reflexivity. Qed.

Lemma fold_addMissing_nothing existing order acc :
  (forall imp, imp ∈ order -> imp ∈ existing) ->
  fold_left (addMissing existing) order acc = acc.
Proof.
  revert acc. induction order as [|imp order IH]; intros [specs next] H; simpl; [done|].
  rewrite bool_decide_eq_true_2 by (apply H; left).
  apply IH. intros x Hx. apply H. by right.
Qed.

Lemma fold_addMissing_paths existing order specs next :
  existingImports (fold_left (addMissing existing) order (specs, next)).1
  = existingImports specs
    ++ map (fun imp => strings.Trim (quoted imp) quote)
           (filter (fun imp => imp ∉ existing) order).
Proof.
  revert specs next. induction order as [|imp order IH]; intros specs next; simpl.
  - by rewrite app_nil_r.
  - rewrite filter_cons. destruct (decide (imp ∈ existing)) as [Hin|Hnin].
    + rewrite bool_decide_eq_true_2 by done.
      rewrite decide_False by (intros ?; done). apply IH.
    + rewrite bool_decide_eq_false_2 by done.
      rewrite decide_True by done. rewrite IH.
      rewrite existingImports_app, existingImports_new, <- app_assoc. done.
Qed.

Lemma TrimRight_snoc x c : strings.TrimRight (x +:+ String c EmptyString) c = strings.TrimRight x c.
Proof.
  induction x as [|a x IH]; simpl.
  - by rewrite Ascii.eqb_refl.
  - by rewrite IH.
Qed.

Lemma TrimRight_id x c : lastByte x <> Some c -> strings.TrimRight x c = x.
Proof.
  induction x as [|a x IH]; [done|].
  destruct x as [|b x].
  - simpl. intros H. destruct (Ascii.eqb a c) eqn:E; [|done].
    apply Ascii.eqb_eq in E. congruence.
  - intros H. change (lastByte (String a (String b x))) with (lastByte (String b x)) in H.
    change (strings.TrimRight (String a (String b x)) c)
      with (match strings.TrimRight (String b x) c with
            | EmptyString => if Ascii.eqb a c then EmptyString else String a EmptyString
            | r => String a r
            end).
    by rewrite (IH H).
Qed.

Lemma readsBack_unquoted x :
  headByte x <> Some quote -> lastByte x <> Some quote -> readsBack x.
Proof.
  intros Hh Hl. unfold readsBack, strings.Trim, quoted.
  change (strings.TrimLeft (String quote (x +:+ String quote EmptyString)) quote)
    with (strings.TrimLeft (x +:+ String quote EmptyString) quote).
  destruct x as [|a x]; [done|].
  simpl strings.TrimLeft.
  destruct (Ascii.eqb a quote) eqn:E.
  { apply Ascii.eqb_eq in E. simpl in Hh. congruence. }
  change (String a (x +:+ String quote EmptyString))
    with (String a x +:+ String quote EmptyString).
  rewrite TrimRight_snoc. by apply TrimRight_id.
Qed.
Lemma forceParens_again gd : forceParens (forceParens gd) = forceParens gd.
Proof.
  unfold forceParens at 1.
  rewrite (withField_same (forceParens gd) "Lparen" (VInt 1)).
  - apply withField_same. unfold forceParens. apply FieldByName_withField_eq.
  - unfold forceParens. rewrite FieldByName_withField_ne by done.
    apply FieldByName_withField_eq.
Qed.

Lemma field_forceParens gd k :
  k <> "Lparen"%string -> k <> "Rparen"%string -> field (forceParens gd) k = field gd k.
Proof.
  intros H1 H2. unfold forceParens. by rewrite !field_withField_ne.
Qed.

Lemma FieldByName_forceParens gd k :
  k <> "Lparen"%string -> k <> "Rparen"%string ->
  FieldByName (fields (forceParens gd)) k = FieldByName (fields gd) k.
Proof.
  intros H1 H2. unfold forceParens. by rewrite !FieldByName_withField_ne.
Qed.

Lemma addImports_into_eq (go : golang) e i gd decls next :
  addImports_into go e i gd decls next =
    let acc := fold_left (addMissing (existingImports (sliceOf (field gd "Specs"))))
                 (range_imports go (Executor_imports e))
                 (sliceOf (field gd "Specs"), next) in
    {| Executor_file :=
         withField (Executor_file e) "Decls"
           (VSlice (<[i := VNode (withSpecs gd acc.1)]> decls));
       Executor_imports := Executor_imports e;
       Executor_next := acc.2 |}.
Proof. unfold addImports_into. by destruct (fold_left _ _ _). Qed.

Lemma withSpecs_facts gd specs :
  isImportDecl (withSpecs gd specs) = isImportDecl gd /\
  FieldByName (fields (withSpecs gd specs)) "Specs" = Some (VSlice specs) /\
  withSpecs (withSpecs gd specs) specs = withSpecs gd specs.
Proof.
  unfold withSpecs. destruct (1 <? length specs)%nat; repeat split.
  - by rewrite isImportDecl_forceParens, isImportDecl_withField.
  - rewrite FieldByName_forceParens by done. apply FieldByName_withField_eq.
  - rewrite (withField_same (forceParens _) "Specs").
    + apply forceParens_again.
    + rewrite FieldByName_forceParens by done. apply FieldByName_withField_eq.
  - by rewrite isImportDecl_withField.
  - apply FieldByName_withField_eq.
  - apply withField_withField.
Qed.

Lemma addImports_into_again (go go' : golang) e i gd decls next :
  findImportDecl decls = Some (i, gd) ->
  (forall imp, imp ∈ Executor_imports e -> imp ∈ range_imports go (Executor_imports e)) ->
  (forall imp, imp ∈ range_imports go' (Executor_imports e) -> imp ∈ Executor_imports e) ->
  (forall imp, imp ∈ Executor_imports e -> readsBack imp) ->
  exists gd1 decls1,
    sliceOf (field (Executor_file (addImports_into go e i gd decls next)) "Decls") = decls1 /\
    findImportDecl decls1 = Some (i, gd1) /\
    addImports_into go' (addImports_into go e i gd decls next) i gd1 decls1
      (Executor_next (addImports_into go e i gd decls next))
    = addImports_into go e i gd decls next.
Proof.
  intros Hfind Hall Hsub Hclean.
  destruct (findImportDecl_lookup _ _ _ Hfind) as [Hi Hgd].
  rewrite (addImports_into_eq go).
  set (specs0 := sliceOf (field gd "Specs")).
  pose proof (fold_addMissing_paths (existingImports specs0)
                (range_imports go (Executor_imports e)) specs0 next) as Hp.
  destruct (fold_left _ _ (specs0, next)) as [specs1 next1] eqn:Hfold.
  cbn [fst snd] in *. cbv zeta.
  destruct (withSpecs_facts gd specs1) as (Hgd1 & HS & Hagain).
  set (gd1 := withSpecs gd specs1) in *.
  cbn [Executor_file Executor_imports Executor_next].
  rewrite field_withField_eq. cbn [sliceOf].
  exists gd1, (<[i := VNode gd1]> decls). split; [done|].
  split; [apply (findImportDecl_update _ _ gd); congruence|].
  rewrite (addImports_into_eq go'). cbn [Executor_file Executor_imports Executor_next].
  assert (Hspecs : sliceOf (field gd1 "Specs") = specs1).
  { unfold field. by rewrite HS. }
  rewrite Hspecs.
  rewrite fold_addMissing_nothing.
  2:{ intros imp Himp. apply Hsub in Himp. rewrite Hp.
      apply elem_of_app.
      destruct (decide (imp ∈ existingImports specs0)) as [?|Hnin]; [by left|right].
      apply list_elem_of_fmap. exists imp. split; [by rewrite (Hclean imp Himp)|].
      apply list_elem_of_filter. split; [done|]. by apply Hall. }
  cbn [fst snd]. rewrite Hagain, list_insert_insert_eq.
  f_equal. apply withField_same, FieldByName_withField_eq.
Qed.

Lemma addImports_into_imports (go : golang) e i gd decls next :
  Executor_imports (addImports_into go e i gd decls next) = Executor_imports e.
Proof. by rewrite addImports_into_eq. Qed.

Lemma addImports_again (go go' : golang) (e : Executor) :
  (forall imp, imp ∈ Executor_imports e -> imp ∈ range_imports go (Executor_imports e)) ->
  (forall imp, imp ∈ range_imports go' (Executor_imports e) -> imp ∈ Executor_imports e) ->
  (forall imp, imp ∈ Executor_imports e -> readsBack imp) ->
  addImports go' (addImports go e) = addImports go e.
Proof.
  intros Hall Hsub Hclean.
  destruct (size (Executor_imports e) =? 0)%nat eqn:Hsize.
  { assert (E : addImports go e = e) by (unfold addImports; by rewrite Hsize).
    rewrite E. unfold addImports. by rewrite Hsize. }
  destruct (findImportDecl (sliceOf (field (Executor_file e) "Decls")))
    as [[i gd]|] eqn:Hfind.
  - assert (E : addImports go e
                = addImports_into go e i gd (sliceOf (field (Executor_file e) "Decls"))
                    (Executor_next e))
      by (unfold addImports; by rewrite Hsize, Hfind).
    destruct (addImports_into_again go go' e i gd _ (Executor_next e)
                Hfind Hall Hsub Hclean) as (gd1 & decls1 & Hdecls & Hfind1 & Hagain).
    rewrite E. unfold addImports.
    by rewrite addImports_into_imports, Hsize, Hdecls, Hfind1.
  - set (decls := VNode (newImportDecl (Executor_next e))
                    :: sliceOf (field (Executor_file e) "Decls")).
    assert (E : addImports go e
                = addImports_into go e 0 (newImportDecl (Executor_next e)) decls
                    (Pos.succ (Executor_next e)))
      by (unfold addImports; by rewrite Hsize, Hfind).
    assert (Hnew : findImportDecl decls = Some (0%nat, newImportDecl (Executor_next e)))
      by reflexivity.
    destruct (addImports_into_again go go' e 0 _ decls (Pos.succ (Executor_next e))
                Hnew Hall Hsub Hclean) as (gd1 & decls1 & Hdecls & Hfind1 & Hagain).
    rewrite E. unfold addImports.
    by rewrite addImports_into_imports, Hsize, Hdecls, Hfind1.
Qed.

Lemma addImports_into_paths (go : golang) e i gd decls next :
  findImportDecl decls = Some (i, gd) ->
  importPaths (Executor_file (addImports_into go e i gd decls next))
  = existingImports (sliceOf (field gd "Specs"))
    ++ map (fun imp => strings.Trim (quoted imp) quote)
           (filter (fun imp => imp ∉ existingImports (sliceOf (field gd "Specs")))
                   (range_imports go (Executor_imports e))).
Proof.
  intros Hfind. rewrite addImports_into_eq. cbv zeta.
  cbn [Executor_file]. unfold importPaths. rewrite field_withField_eq. cbn [sliceOf].
  destruct (findImportDecl_lookup _ _ _ Hfind) as [_ Hgd].
  set (specs0 := sliceOf (field gd "Specs")).
  pose proof (fold_addMissing_paths (existingImports specs0)
                (range_imports go (Executor_imports e)) specs0 next) as Hp.
  destruct (fold_left _ _ (specs0, next)) as [specs1 next1]. cbn [fst snd] in *.
  destruct (withSpecs_facts gd specs1) as (Hgd1 & HS & _).
  rewrite (findImportDecl_update _ _ gd) by congruence.
  assert (Hspecs : sliceOf (field (withSpecs gd specs1) "Specs") = specs1)
    by (unfold field; by rewrite HS).
  by rewrite Hspecs, Hp.
Qed.

Lemma map_readsBack (l : list string) :
  (forall imp, imp ∈ l -> readsBack imp) ->
  map (fun imp => strings.Trim (quoted imp) quote) l = l.
Proof.
  induction l as [|x l IH]; intros H; simpl; [done|].
  rewrite (H x) by left. f_equal. apply IH. intros imp Himp. apply H. by right.
Qed.

(** The import paths after [addImports]: those already there, then the
    packages of the import map that were missing, in the order of the loop. *)
Lemma addImports_paths (go : golang) (e : Executor) :
  (forall imp, imp ∈ range_imports go (Executor_imports e) -> imp ∈ Executor_imports e) ->
  (forall imp, imp ∈ Executor_imports e -> readsBack imp) ->
  importPaths (Executor_file (addImports go e))
  = importPaths (Executor_file e)
    ++ filter (fun imp => imp ∉ importPaths (Executor_file e))
              (range_imports go (Executor_imports e)).
Proof.
  intros Hsub Hclean. unfold addImports.
  destruct (size (Executor_imports e) =? 0)%nat eqn:Hsize.
  - apply Nat.eqb_eq, size_empty_iff in Hsize.
    destruct (range_imports go (Executor_imports e)) as [|imp order].
    + by rewrite filter_nil, app_nil_r.
    + exfalso. assert (imp ∈ Executor_imports e) by (apply Hsub; left). set_solver.
  - assert (Hmap : forall P : string -> Prop, forall HP : forall x, Decision (P x),
              map (fun imp => strings.Trim (quoted imp) quote)
                  (filter P (range_imports go (Executor_imports e)))
              = filter P (range_imports go (Executor_imports e))).
    { intros P HP. apply map_readsBack. intros imp [_ Himp]%list_elem_of_filter.
      by apply Hclean, Hsub. }
    destruct (findImportDecl (sliceOf (field (Executor_file e) "Decls")))
      as [[i gd]|] eqn:Hfind.
    + assert (Hpaths : importPaths (Executor_file e)
                       = existingImports (sliceOf (field gd "Specs")))
        by (unfold importPaths; by rewrite Hfind).
      rewrite (addImports_into_paths go e i gd _ _ Hfind), Hpaths. by rewrite Hmap.
    + assert (Hpaths : importPaths (Executor_file e) = [])
        by (unfold importPaths; by rewrite Hfind).
      rewrite (addImports_into_paths go e 0 (newImportDecl (Executor_next e))) by done.
      rewrite Hpaths. cbn [app]. apply Hmap.
Qed.

(** Every package of the import map is among the file's imports after
    [addImports]. *)
Lemma addImports_adds (go : golang) (e : Executor) (imp : string) :
  (forall imp, imp ∈ range_imports go (Executor_imports e) <-> imp ∈ Executor_imports e) ->
  (forall imp, imp ∈ Executor_imports e -> readsBack imp) ->
  imp ∈ Executor_imports e ->
  imp ∈ importPaths (Executor_file (addImports go e)).
Proof.
  intros Hrange Hclean Hin. rewrite addImports_paths; [|by intros ? ?%Hrange|done].
  apply elem_of_app.
  destruct (decide (imp ∈ importPaths (Executor_file e))) as [?|Hnin]; [by left|right].
  apply list_elem_of_filter. split; [done|]. by apply Hrange.
Qed.


(** C8.  Import reconciliation is idempotent.  For every executor whose
    import map holds plain package names (no quote at either end: the
    executor itself only ever adds [context] and [time]), whatever the order
    in which [range] visits the map in each run, running [addImports] a
    second time changes nothing: file, import map and allocator are those
    after the first run.  The first run leaves the import paths that were
    there and appends exactly the packages of the map that were missing, so
    no package already present as an import spec is appended again. *)
Theorem addImports_idempotent (go go' : golang) (e : Executor) :
  (forall imp, imp ∈ range_imports go (Executor_imports e) <-> imp ∈ Executor_imports e) ->
  (forall imp, imp ∈ range_imports go' (Executor_imports e) <-> imp ∈ Executor_imports e) ->
  (forall imp, imp ∈ Executor_imports e -> plainName imp) ->
  addImports go' (addImports go e) = addImports go e /\
  importPaths (Executor_file (addImports go e))
  = importPaths (Executor_file e)
    ++ filter (fun imp => imp ∉ importPaths (Executor_file e))
              (range_imports go (Executor_imports e)).
Proof.
  intros Hgo Hgo' Hplain.
  assert (Hclean : forall imp, imp ∈ Executor_imports e -> readsBack imp).
  { intros imp [Hh Hl]%Hplain. by apply readsBack_unquoted. }
  split.
  - apply addImports_again; [by intros ? ?%Hgo|by intros ? ?%Hgo'|done].
  - apply addImports_paths; [by intros ? ?%Hgo|done].
Qed.

Lemma addImports_idempotent_witness :
  let e := {| Executor_file := Sample.file_m;
              Executor_imports := {[ "context"%string; "time"%string ]};
              Executor_next := 100 |} in
  addImports Sample.go0 (addImports Sample.go0 e) = addImports Sample.go0 e /\
  importPaths (Executor_file (addImports Sample.go0 e))
  = importPaths (Executor_file e)
    ++ filter (fun imp => imp ∉ importPaths (Executor_file e))
              (range_imports Sample.go0 (Executor_imports e)).
Proof.
  intros e.
  apply (addImports_idempotent Sample.go0 Sample.go0 e).
  - intros imp. apply elem_of_elements.
  - intros imp. apply elem_of_elements.
  - intros imp [->%elem_of_singleton| ->%elem_of_singleton]%elem_of_union;
      split; vm_compute; discriminate.
Defined.

(** The same, evaluated: both packages are added on the first run. *)
Example addImports_twice :
  let e := {| Executor_file := Sample.file_m;
              Executor_imports := {[ "context"%string; "time"%string ]};
              Executor_next := 100 |} in
  importPaths (Executor_file e) = [] /\
  importPaths (Executor_file (addImports Sample.go0 e))
  ≡ₚ ["context"; "time"]%string /\
  importPaths (Executor_file (addImports Sample.go0 (addImports Sample.go0 e)))
  = importPaths (Executor_file (addImports Sample.go0 e)).
Proof.
  intros e. split; [reflexivity|]. split.
  - assert (H : importPaths (Executor_file (addImports Sample.go0 e))
                = ["context"; "time"]%string
                \/ importPaths (Executor_file (addImports Sample.go0 e))
                   = ["time"; "context"]%string).
    { vm_compute. auto. }
    destruct H as [-> | ->]; [done|apply Permutation_swap].
  - vm_compute. reflexivity.
Qed.

(** *** Set *)

Lemma parseTypeExpr_ok typeStr e :
  exists ty next, parseTypeExpr typeStr e = (setNext e next, Ok ty).
Proof.
  unfold parseTypeExpr.
  destruct (strings.Contains typeStr "."); [|by eexists _, _].
  destruct (strings.SplitN2 typeStr ".") as [|p0 [|p1 [|]]]; by eexists _, _.
Qed.

Lemma executeSet_imports (set : SetStmt) (bindings : Bindings) (e e' : Executor) :
  executeSet set bindings e = (e', Ok tt) ->
  exists str name ty,
    Expr_String (SetStmt_Value set) = Some str /\
    strings.SplitN2 (strings.Trim str quote) " " = [name; ty] /\
    Executor_imports e' =
      if strings.Contains ty "context." then {[ "context"%string ]} ∪ Executor_imports e
      else Executor_imports e.
Proof.
  unfold executeSet.
  destruct (bindings !! _) as [target|]; [|done].
  destruct (bool_decide _); [|done].
  destruct (asKind "FieldList" target) as [fl|]; [|done].
  destruct (Expr_String (SetStmt_Value set)) as [str|]; [|done].
  destruct (strings.SplitN2 _ " ") as [|name [|ty [|]]] eqn:Hsplit; try done.
  intros H. exists str, name, ty. split; [done|]. split; [done|].
  revert H. unfold mbind, exec_bind. cbn [alloc].
  match goal with
  | |- context [parseTypeExpr ty ?e0] =>
      destruct (parseTypeExpr_ok ty e0) as (t & next & ->)
  end.
  cbn [alloc setNext assign modify Executor_file Executor_imports Executor_next].
  destruct (strings.Contains ty "context."); intros [= <-]; done.
Qed.


(** C6 (as the code has it).  When [set $X.first = "name type"] executes
    successfully, the import map afterwards is the one before, with the
    package [context] added exactly when the type part contains [context.];
    no other package is ever added by [set].  In that case [context] is
    among the import paths of the file after import reconciliation, from any
    later state of the executor whose import map still holds it. *)
Theorem executeSet_tracks_context
    (go : golang) (set : SetStmt) (bindings : Bindings) (e e' : Executor) :
  (forall s imp, imp ∈ range_imports go s <-> imp ∈ s) ->
  executeSet set bindings e = (e', Ok tt) ->
  exists str name ty,
    Expr_String (SetStmt_Value set) = Some str /\
    strings.SplitN2 (strings.Trim str quote) " " = [name; ty] /\
    Executor_imports e' =
      (if strings.Contains ty "context." then {[ "context"%string ]} ∪ Executor_imports e
       else Executor_imports e) /\
    (strings.Contains ty "context." = true ->
     "context"%string ∈ Executor_imports e' /\
     forall e'', Executor_imports e' ⊆ Executor_imports e'' ->
       (forall imp, imp ∈ Executor_imports e'' -> plainName imp) ->
       "context"%string ∈ importPaths (Executor_file (addImports go e''))).
Proof.
  intros Hrange Hset.
  destruct (executeSet_imports set bindings e e' Hset) as (str & name & ty & Hs & Hsplit & Hi).
  exists str, name, ty. split; [done|]. split; [done|]. split; [done|].
  intros Hctx. rewrite Hctx in Hi.
  assert (Hin : "context"%string ∈ Executor_imports e').
  { rewrite Hi. apply elem_of_union. left. by apply elem_of_singleton. }
  split; [done|]. intros e'' Hsub Hplain.
  apply addImports_adds; [done| |by apply Hsub].
  intros imp [Hh Hl]%Hplain. by apply readsBack_unquoted.
Qed.

Lemma executeSet_tracks_context_witness :
  let set := Sample.setStmt "P" "ctx context.Context" in
  let bindings : Bindings := {[ "P"%string := VNode Sample.hello_params ]} in
  let e' := (executeSet set bindings Sample.executor0).1 in
  exists str name ty,
    Expr_String (SetStmt_Value set) = Some str /\
    strings.SplitN2 (strings.Trim str quote) " " = [name; ty] /\
    Executor_imports e' =
      (if strings.Contains ty "context."
       then {[ "context"%string ]} ∪ Executor_imports Sample.executor0
       else Executor_imports Sample.executor0) /\
    (strings.Contains ty "context." = true ->
     "context"%string ∈ Executor_imports e' /\
     forall e'', Executor_imports e' ⊆ Executor_imports e'' ->
       (forall imp, imp ∈ Executor_imports e'' -> plainName imp) ->
       "context"%string ∈ importPaths (Executor_file (addImports Sample.go0 e''))).
Proof.
  intros set bindings e'.
  apply (executeSet_tracks_context Sample.go0 set bindings Sample.executor0 e').
  - intros s imp. apply elem_of_elements.
  - vm_compute. reflexivity.
Defined.

(** The same, evaluated: the import [context] is in the file afterwards. *)
Example executeSet_context :
  let run := Execute Sample.go0
               (Sample.blockOf [Sample.matchFuncType]
                  [Sample.patchOf [Sample.setStmt "P" "ctx context.Context"]])
               Sample.typeMatches Sample.executor0 in
  elements (Executor_imports run.1) = ["context"%string] /\
  importPaths (Executor_file run.1) = ["context"%string].
Proof. intros run. split; vm_compute; reflexivity. Qed.

(** C6 fails as stated: [set $P.first = "d time.Duration"] executes
    successfully on both function types of the sample file; the type part
    contains [time.], yet the import map stays empty and the file has no
    import after reconciliation. *)
Lemma executeSet_other_package_counterexample :
  let run := Execute Sample.go0
               (Sample.blockOf [Sample.matchFuncType]
                  [Sample.patchOf [Sample.setStmt "P" "d time.Duration"]])
               Sample.typeMatches Sample.executor0 in
  strings.Contains "time.Duration" "time." = true /\
  (exists result, run.2 = Ok result /\ Result_Applied result = ["patch"; "patch"]%string) /\
  Executor_imports run.1 = ∅ /\
  importPaths (Executor_file run.1) = [].
Proof.
  intros run. split; [reflexivity|]. split.
  - eexists. split; vm_compute; reflexivity.
  - split; vm_compute; reflexivity.
Qed.
